(** * The derived-statistics and aggregation engine of [src/main.js]

    [main.js] is a slide deck over a table of monthly, per-state MODIS
    readings.  Its computational core is small:

    - [computeVarStats] (lines 144-176): per variable, the global extrema,
      the tick values used as bin edges and the threshold colour scale;
    - [updateMap] (lines 255-279): the per-state mean of the current
      variable for one year and month, and the fill colour of a state;
    - [buildSeriesForState] (lines 381-402): the per-date mean of the
      current variable, for one state or for all states.

    The engine is written against d3 (v7): [d3.mean], [d3.min], [d3.max],
    [d3.ticks], [d3.rollup], [d3.rollups], [d3.scaleThreshold] and
    [d3.bisectRight].  Those functions are embedded here as well, each one
    following the control flow of its JavaScript source in d3-array 3.2 and
    d3-scale 4.0.

    ** Numbers

    JavaScript numbers are IEEE-754 binary64 values.  The aggregator only
    adds numbers, divides a sum by a count and tests for [NaN], so it is
    written once over an interface of numbers ([Number]) and instantiated
    twice: with exact rationals extended by [NaN] ([xnum]), and with
    Rocq's primitive binary64 floats.  What is proved of the aggregator in
    general holds for both.  The statistics engine needs [Math.log10],
    [Math.pow] and [Math.sqrt] inside [d3.ticks]; it is embedded over the
    exact numbers only, where these are computed without rounding, and
    infinities are left out.  The threshold scale only compares numbers,
    and finite binary64 numbers are rationals that compare as such.

    ** State

    The module-level variables [modisData], [currentVar], [currentYear],
    [currentMonth] and [selectedState] are read-only inside the three
    functions above; they are passed as arguments.  [computeVarStats]
    assigns one entry of [varStats] per variable; it returns the entries.

    ** Contents

    The definitions come first: numbers, records, the d3 functions, the
    aggregator, the statistics engine, then the vocabulary of the
    properties and the example stores.  The facts follow, on groups, means,
    sorting, the binary search, the decimal logarithm, ticks, extrema and
    bins.  The last part states the claims C1 to C10 about the engine. *)

From Stdlib Require Import List String ZArith QArith Qround Qminmax Qpower Bool Lia Lqa.
From Stdlib Require Import Sorting.Sorted Sorting.Permutation.
From Stdlib Require Import PrimFloat Uint63.
Import ListNotations.

Local Open Scope string_scope.
Local Open Scope list_scope.
Local Open Scope Z_scope.

Set Implicit Arguments.
Set Warnings "-inexact-float".

(* ================================================================= *)
(** * JavaScript numbers *)

(** The operations on numbers that the aggregator uses.  [div_count s n]
    is [s / n] for a count [n] of array elements (an integer below 2^32,
    exactly representable as a number). *)
Class Number (num : Type) := {
  zero : num;
  add : num -> num -> num;
  div_count : num -> nat -> num;
  isNaN : num -> bool
}.

(** Exact numbers: a rational or [NaN]. *)
Inductive xnum : Type :=
| XNaN
| Fin (q : Q).

Definition xadd (a b : xnum) : xnum :=
  match a, b with
  | Fin p, Fin q => Fin (p + q)%Q
  | _, _ => XNaN
  end.

Definition xdiv_count (s : xnum) (n : nat) : xnum :=
  match s with
  | Fin p => Fin (p / inject_Z (Z.of_nat n))%Q
  | XNaN => XNaN
  end.

Definition xisNaN (a : xnum) : bool :=
  match a with
  | XNaN => true
  | Fin _ => false
  end.

#[export] Instance Number_xnum : Number xnum := {
  zero := Fin 0;
  add := xadd;
  div_count := xdiv_count;
  isNaN := xisNaN
}.

(** Binary64 numbers. *)
#[export] Instance Number_float : Number float := {
  zero := PrimFloat.zero;
  add := PrimFloat.add;
  div_count := fun s n => PrimFloat.div s (PrimFloat.of_uint63 (Uint63.of_Z (Z.of_nat n)));
  isNaN := PrimFloat.is_nan
}.

(** A value read from a record field or returned by a d3 reducer is a
    number, or [null]/[undefined], which the code never tells apart (it
    tests [v != null] and [v == null]): [None]. *)
Definition jsval (num : Type) : Type := option num.

(** [v != null && !Number.isNaN(v)] (lines 148 and 400), which is also
    d3's test [value != null && (value = +value) >= value]. *)
Definition is_valid {num} `{Number num} (v : jsval num) : bool :=
  match v with
  | Some x => negb (isNaN x)
  | None => false
  end.

(* ================================================================= *)
(** * The record store *)

(** One row of [data/modis_all_years.csv] as built by the row function of
    [loadData] (lines 124-133).  [year] and [month] are integers; [date]
    is the time value (milliseconds since the epoch) of a valid [Date]. *)
Record row (num : Type) : Type := mkRow {
  state : string;
  year : Z;
  month : Z;
  NDVI : jsval num;
  LST_Day : jsval num;
  LST_Night : jsval num;
  ET : jsval num;
  date : Z
}.

(** The four column names that occur as [cfg.field]. *)
Inductive field : Type := F_NDVI | F_LST_Day | F_LST_Night | F_ET.

(** [d[cfg.field]] *)
Definition get_field {num} (f : field) (d : row num) : jsval num :=
  match f with
  | F_NDVI => NDVI d
  | F_LST_Day => LST_Day d
  | F_LST_Night => LST_Night d
  | F_ET => ET d
  end.

(** [VAR_CONFIG] (lines 13-38). *)
Inductive var_key : Type := ndvi | lstDay | lstNight | et.

Record var_config : Type := mkConfig {
  cfg_field : field;
  label : string;
  legendLabel : string;
  colorType : string
}.

Definition VAR_CONFIG (key : var_key) : var_config :=
  match key with
  | ndvi => mkConfig F_NDVI "NDVI (Vegetation Greenness)" "NDVI (unitless)" "greens"
  | lstDay => mkConfig F_LST_Day "Land Surface Temp - Day (F)"
                "Land Surface Temperature - Day (F)" "temp"
  | lstNight => mkConfig F_LST_Night "Land Surface Temp - Night (F)"
                  "Land Surface Temperature - Night (F)" "temp"
  | et => mkConfig F_ET "Evapotranspiration (mm/day)" "Evapotranspiration (mm/day)" "blues"
  end.

(** [Object.entries(VAR_CONFIG)]: the keys in insertion order. *)
Definition VAR_CONFIG_entries : list (var_key * var_config) :=
  map (fun k => (k, VAR_CONFIG k)) [ndvi; lstDay; lstNight; et].

(* ================================================================= *)
(** * d3-array: mean, group, rollup *)

Section Mean.
Context {num : Type} `{Number num} {A : Type}.

(** The loop of [d3.mean(values, valueof)]:
    [if ((value = valueof(value, ++index, values)) != null
         && (value = +value) >= value) ++count, sum += value]. *)
Fixpoint mean_loop (valueof : A -> jsval num) (values : list A)
         (count : nat) (sum : num) : nat * num :=
  match values with
  | [] => (count, sum)
  | value :: rest =>
      match valueof value with
      | Some x => if isNaN x then mean_loop valueof rest count sum
                  else mean_loop valueof rest (S count) (add sum x)
      | None => mean_loop valueof rest count sum
      end
  end.

(** [d3.mean]: [if (count) return sum / count;], and [undefined]
    otherwise. *)
Definition d3_mean (values : list A) (valueof : A -> jsval num) : jsval num :=
  let '(count, sum) := mean_loop valueof values 0%nat zero in
  match count with
  | O => None
  | S _ => Some (div_count sum count)
  end.

(** The values that take part in the mean, in order. *)
Fixpoint valid_values (valueof : A -> jsval num) (values : list A) : list num :=
  match values with
  | [] => []
  | value :: rest =>
      match valueof value with
      | Some x => if isNaN x then valid_values valueof rest
                  else x :: valid_values valueof rest
      | None => valid_values valueof rest
      end
  end.
End Mean.

Section Group.
Context {A K : Type}.
Variable eqb : K -> K -> bool.

(** One turn of the loop of d3's [nest]:
    [const group = groups.get(key);
     if (group) group.push(value); else groups.set(key, [value]);]
    on a [Map], whose entries keep their insertion order. *)
Fixpoint groups_push (groups : list (K * list A)) (key : K) (value : A)
  : list (K * list A) :=
  match groups with
  | [] => [(key, [value])]
  | (k, group) :: rest =>
      if eqb k key then (k, group ++ [value]) :: rest
      else (k, group) :: groups_push rest key value
  end.

(** [d3.group(values, keyof)] with one key function. *)
Definition d3_group (values : list A) (keyof : A -> K) : list (K * list A) :=
  fold_left (fun groups value => groups_push groups (keyof value) value) values [].

(** [d3.rollups(values, reduce, keyof)]: the groups, each replaced by
    its reduction, as an array of [[key, value]] pairs.  [d3.rollup]
    returns the same entries as a [Map]. *)
Definition d3_rollups {R : Type} (values : list A) (reduce : list A -> R)
           (keyof : A -> K) : list (K * R) :=
  map (fun entry => (fst entry, reduce (snd entry))) (d3_group values keyof).

Definition d3_rollup {R : Type} := @d3_rollups R.

(** [map.get(key)] and [map.has(key)] of a [Map] given by its entries. *)
Fixpoint Map_find {R : Type} (m : list (K * R)) (key : K) : option R :=
  match m with
  | [] => None
  | (k, v) :: rest => if eqb k key then Some v else Map_find rest key
  end.

Definition Map_has {R : Type} (m : list (K * R)) (key : K) : bool :=
  match Map_find m key with
  | Some _ => true
  | None => false
  end.
End Group.

(** [map.get(key)] when the values may themselves be [undefined]. *)
Definition Map_get {K num : Type} (eqb : K -> K -> bool)
           (m : list (K * jsval num)) (key : K) : jsval num :=
  match Map_find eqb m key with
  | Some v => v
  | None => None
  end.

(* ================================================================= *)
(** * Arrays *)

Section Array.
Context {T : Type}.

(** [array.sort(compare)] is a stable sort: here by insertion, an
    element going before the first one it does not compare above. *)
Fixpoint sort_insert (compare : T -> T -> Z) (a : T) (sorted : list T) : list T :=
  match sorted with
  | [] => [a]
  | b :: rest =>
      if compare a b <=? 0 then a :: b :: rest
      else b :: sort_insert compare a rest
  end.

Definition Array_sort (compare : T -> T -> Z) (array : list T) : list T :=
  fold_right (sort_insert compare) [] array.
End Array.

(* ================================================================= *)
(** * The aggregator *)

Section Aggregator.
Context {num : Type} `{Number num}.

(** [(d) => d.year === currentYear && d.month === currentMonth] *)
Definition month_filter (currentYear currentMonth : Z) (d : row num) : bool :=
  (year d =? currentYear) && (month d =? currentMonth).

(** The map [valuesByState] of [updateMap] (lines 261-267). *)
Definition valuesByState (modisData : list (row num)) (currentVar : var_key)
           (currentYear currentMonth : Z) : list (string * jsval num) :=
  let cfg := VAR_CONFIG currentVar in
  d3_rollup String.eqb
    (filter (month_filter currentYear currentMonth) modisData)
    (fun v => d3_mean v (fun d => get_field (cfg_field cfg) d))
    (fun d => state d).

(** A point of the series: [{date, value}]. *)
Record SeriesPoint : Type := mkPoint {
  point_date : Z;
  value : jsval num
}.

(** The truth value of [stateName] in [stateName ? ... : true]:
    [null] and the empty string are false. *)
Definition truthy (stateName : option string) : bool :=
  match stateName with
  | None => false
  | Some s => negb (String.eqb s "")
  end.

(** [(d) => stateName ? d.state === stateName : true] *)
Definition state_filter (stateName : option string) (d : row num) : bool :=
  if truthy stateName
  then match stateName with
       | Some s => String.eqb (state d) s
       | None => false
       end
  else true.

(** The constant [byDate] of [buildSeriesForState] (lines 385-397): the
    records that pass the state filter, grouped by [+d.date], each group
    reduced to the mean of the field. *)
Definition byDate (modisData : list (row num)) (currentVar : var_key)
           (stateName : option string) : list SeriesPoint :=
  let cfg := VAR_CONFIG currentVar in
  let field := cfg_field cfg in
  let filtered := filter (state_filter stateName) modisData in
  map (fun entry => mkPoint (fst entry) (snd entry))
      (d3_rollups Z.eqb filtered
         (fun v => d3_mean v (fun d => get_field field d))
         (fun d => date d)).

(** [buildSeriesForState] (lines 381-402). *)
Definition buildSeriesForState (modisData : list (row num)) (currentVar : var_key)
           (stateName : option string) : list SeriesPoint :=
  Array_sort (fun a b => point_date a - point_date b)
             (filter (fun d => is_valid (value d)) (byDate modisData currentVar stateName)).
End Aggregator.

Arguments SeriesPoint : clear implicits.
Arguments mkPoint {num} _ _.

(* ================================================================= *)
(** * Exact arithmetic for the statistics engine *)

(** Comparisons of numbers; a comparison with [NaN] is false. *)
Definition Qlt_bool (p q : Q) : bool := negb (Qle_bool q p).

Definition xlt (a b : xnum) : bool :=
  match a, b with
  | Fin p, Fin q => Qlt_bool p q
  | _, _ => false
  end.

Definition xle (a b : xnum) : bool :=
  match a, b with
  | Fin p, Fin q => Qle_bool p q
  | _, _ => false
  end.

Definition xgt (a b : xnum) : bool := xlt b a.
Definition xge (a b : xnum) : bool := xle b a.

(** [+v] for a number or [undefined]. *)
Definition to_number (v : jsval xnum) : xnum :=
  match v with
  | Some x => x
  | None => XNaN
  end.

(** [Math.round(x)]: the integer nearest to [x], halves going up. *)
Definition Math_round (x : Q) : Z := Qfloor (x + (1 # 2))%Q.

(** [Math.pow(10, p)] for an integer [p]. *)
Definition pow10 (p : Z) : Q := Qpower 10 p.

(** [x >= Math.sqrt(n)], decided on the squares. *)
Definition ge_sqrt (x n : Q) : bool := Qle_bool 0 x && Qle_bool n (x * x)%Q.

(** [Math.floor(Math.log10(x))] for [0 < x]: the number of divisions by
    ten that keep [x] at or above one, or minus the number of
    multiplications by ten that bring it there.  The fuel, taken from the
    sizes of the numerator and the denominator, does not run out
    ([floor_log10_spec] below). *)
Fixpoint log10_up (fuel : nat) (x : Q) (p : Z) : Z :=
  match fuel with
  | O => p
  | S fuel' => if Qle_bool 10 x then log10_up fuel' (x / 10)%Q (p + 1) else p
  end.

Fixpoint log10_down (fuel : nat) (x : Q) (p : Z) : Z :=
  match fuel with
  | O => p
  | S fuel' => if Qle_bool 1 x then p else log10_down fuel' (x * 10)%Q (p - 1)
  end.

Definition floor_log10 (x : Q) : Z :=
  let fuel := S (S (Z.to_nat (Z.log2 (Qnum x) + Z.log2 (Zpos (Qden x))))) in
  if Qle_bool 1 x then log10_up fuel x 0 else log10_down fuel x 0.

(* ================================================================= *)
(** * d3-array: min, max, ticks, bisectRight *)

(** One turn of the loop of [d3.min(values)]:
    [if (value != null && (min > value || (min === undefined && value >= value)))
       min = value;] *)
Definition min_step (min : jsval xnum) (value : jsval xnum) : jsval xnum :=
  match value with
  | Some x => if match min with Some m => xgt m x | None => xge x x end
              then Some x else min
  | None => min
  end.

(** [d3.min(values)]: [min] starts [undefined]. *)
Definition d3_min (values : list (jsval xnum)) : jsval xnum :=
  fold_left min_step values None.

(** One turn of the loop of [d3.max(values)], with [max < value]. *)
Definition max_step (max : jsval xnum) (value : jsval xnum) : jsval xnum :=
  match value with
  | Some x => if match max with Some m => xlt m x | None => xge x x end
              then Some x else max
  | None => max
  end.

Definition d3_max (values : list (jsval xnum)) : jsval xnum :=
  fold_left max_step values None.

(** The statements of [tickSpec(start, stop, count)] of d3-array's
    [ticks.js] before its last two lines: the indices [i1], [i2] of the
    first and last tick and the increment [inc], negative when it stands
    for its inverse.  The constants [e10], [e5], [e2] are
    [Math.sqrt(50)], [Math.sqrt(10)], [Math.sqrt(2)].  [d3.ticks] calls it
    with [start < stop] and [0 < count], which make [step] positive. *)
Definition tickSpec_body (start stop count : Q) : Z * Z * Q :=
  let step := ((stop - start) / Qmax 0 count)%Q in
  let power := floor_log10 step in
  let error := (step / pow10 power)%Q in
  let factor : Q :=
    if ge_sqrt error 50 then 10%Q
    else if ge_sqrt error 10 then 5%Q
    else if ge_sqrt error 2 then 2%Q
    else 1%Q in
  if power <? 0 then
    let inc := (pow10 (- power) / factor)%Q in
    let i1 := Math_round (start * inc)%Q in
    let i2 := Math_round (stop * inc)%Q in
    let i1 := if Qlt_bool (inject_Z i1 / inc)%Q start then i1 + 1 else i1 in
    let i2 := if Qlt_bool stop (inject_Z i2 / inc)%Q then i2 - 1 else i2 in
    (i1, i2, (- inc)%Q)
  else
    let inc := (pow10 power * factor)%Q in
    let i1 := Math_round (start / inc)%Q in
    let i2 := Math_round (stop / inc)%Q in
    let i1 := if Qlt_bool (inject_Z i1 * inc)%Q start then i1 + 1 else i1 in
    let i2 := if Qlt_bool stop (inject_Z i2 * inc)%Q then i2 - 1 else i2 in
    (i1, i2, inc).

(** [tickSpec(start, stop, count)]:
    [if (i2 < i1 && 0.5 <= count && count < 2)
       return tickSpec(start, stop, count * 2);
     return [i1, i2, inc];]
    The doubled count leaves the interval after two calls at most
    ([tickSpec_fuel] below). *)
Fixpoint tickSpec (fuel : nat) (start stop count : Q) : Z * Z * Q :=
  let '(i1, i2, inc) := tickSpec_body start stop count in
  if (i2 <? i1) && Qle_bool (1 # 2) count && Qlt_bool count 2 then
    match fuel with
    | S fuel' => tickSpec fuel' start stop (count * 2)%Q
    | O => (i1, i2, inc)
    end
  else (i1, i2, inc).

(** The tick of index [i]: [i / -inc] when [inc < 0], [i * inc] otherwise. *)
Definition tick_value (inc : Q) (i : Z) : Q :=
  if Qlt_bool inc 0 then (inject_Z i / - inc)%Q else (inject_Z i * inc)%Q.

(** [d3.ticks(start, stop, count)].  When [start] or [stop] is [NaN],
    every number computed by [tickSpec] is [NaN], [i2 >= i1] is false and
    the result is empty; likewise when [count] is [NaN]. *)
Definition d3_ticks (start stop count : xnum) : list Q :=
  match start, stop, count with
  | Fin start, Fin stop, Fin count =>
      if negb (Qlt_bool 0 count) then []
      else if Qeq_bool start stop then [start]
      else
        let reverse := Qlt_bool stop start in
        let '(i1, i2, inc) :=
          if reverse then tickSpec 2 stop start count
          else tickSpec 2 start stop count in
        if negb (i1 <=? i2) then []
        else
          let n := Z.to_nat (i2 - i1 + 1) in
          let tick (f : Z -> Q) := map (fun i => f (Z.of_nat i)) (seq 0 n) in
          if reverse then
            if Qlt_bool inc 0 then tick (fun i => inject_Z (i2 - i) / - inc)%Q
            else tick (fun i => inject_Z (i2 - i) * inc)%Q
          else
            if Qlt_bool inc 0 then tick (fun i => inject_Z (i1 + i) / - inc)%Q
            else tick (fun i => inject_Z (i1 + i) * inc)%Q
  | _, _, _ => []
  end.

(** [ascending(a, b)] of d3-array:
    [a == null || b == null ? NaN
     : a < b ? -1 : a > b ? 1 : a >= b ? 0 : NaN]. *)
Definition ascending (a b : jsval xnum) : xnum :=
  match a, b with
  | Some a, Some b =>
      if xlt a b then Fin (-1)%Q
      else if xgt a b then Fin 1
      else if xge a b then Fin 0
      else XNaN
  | _, _ => XNaN
  end.

(** [a[i]] for an array of numbers: [undefined] out of range. *)
Definition array_get (a : list Q) (i : nat) : jsval xnum :=
  option_map Fin (nth_error a i).

(** The loop of [bisector(ascending).right]:
    [do { const mid = (lo + hi) >>> 1;
          if (compare2(a[mid], x) <= 0) lo = mid + 1; else hi = mid;
     } while (lo < hi);]
    One unit of fuel per turn; [hi - lo] turns are enough
    ([bisect_loop_fuel] below). *)
Fixpoint bisect_loop (fuel : nat) (a : list Q) (x : xnum) (lo hi : nat) : nat :=
  match fuel with
  | O => lo
  | S fuel' =>
      let mid := Nat.div2 (lo + hi) in
      let lo' := if xle (ascending (array_get a mid) (Some x)) (Fin 0) then S mid else lo in
      let hi' := if xle (ascending (array_get a mid) (Some x)) (Fin 0) then hi else mid in
      if (lo' <? hi')%nat then bisect_loop fuel' a x lo' hi' else lo'
  end.

(** [d3.bisectRight(a, x, lo, hi)]:
    [if (lo < hi) { if (compare1(x, x) !== 0) return hi; do ... } return lo;] *)
Definition bisectRight (a : list Q) (x : xnum) (lo hi : nat) : nat :=
  if (lo <? hi)%nat then
    match ascending (Some x) (Some x) with
    | Fin c => if Qeq_bool c 0 then bisect_loop (hi - lo) a x lo hi else hi
    | XNaN => hi
    end
  else lo.

(* ================================================================= *)
(** * d3-scale and d3-scale-chromatic *)

(** A colour: a CSS hexadecimal string of [main.js], or entry [index] of
    the [k]-class scheme [scheme] of d3-scale-chromatic, whose tables are
    not needed here. *)
Inductive color : Type :=
| Hex (css : string)
| SchemeColor (scheme : string) (k : nat) (index : nat).

(** [d3.schemeGreens[k]], [d3.schemeBlues[k]], [d3.schemeGreys[k]]: an
    array of [k] colours. *)
Definition d3_scheme (scheme : string) (k : nat) : list color :=
  map (SchemeColor scheme k) (seq 0 k).

Definition schemeGreens := d3_scheme "Greens".
Definition schemeBlues := d3_scheme "Blues".
Definition schemeGreys := d3_scheme "Greys".

(** [array.slice(1)] *)
Definition slice1 {T : Type} (array : list T) : list T := skipn 1 array.

(** The state of a [d3.scaleThreshold()]: [domain], [range] and
    [n = Math.min(domain.length, range.length - 1)], which both setters
    recompute; [unknown] stays [undefined]. *)
Record ThresholdScale : Type := mkScale {
  domain : list Q;
  range : list color;
  n : nat
}.

(** [d3.scaleThreshold().domain(t).range(colors)] *)
Definition scaleThreshold (t : list Q) (colors : list color) : ThresholdScale :=
  mkScale t colors (Nat.min (List.length t) (List.length colors - 1)).

(** The bin of a number: [bisect(domain, x, 0, n)]. *)
Definition scale_index (s : ThresholdScale) (x : xnum) : nat :=
  bisectRight (domain s) x 0 (n s).

(** [scale(x)]:
    [x != null && x <= x ? range[bisect(domain, x, 0, n)] : unknown]. *)
Definition scale_apply (s : ThresholdScale) (x : jsval xnum) : option color :=
  match x with
  | Some x => if xle x x then nth_error (range s) (scale_index s x) else None
  | None => None
  end.

(* ================================================================= *)
(** * The statistics engine *)

(** An entry of [varStats]: [{ min, max, thresholds: t, colors, scale }]. *)
Record VariableStats : Type := mkStats {
  min : jsval xnum;
  max : jsval xnum;
  thresholds : list Q;
  colors : list color;
  scale : ThresholdScale
}.

(** The body of the [forEach] callback of [computeVarStats]
    (lines 146-174). *)
Definition computeStats (modisData : list (row xnum)) (cfg : var_config)
  : VariableStats :=
  let vals := filter is_valid (map (fun d => get_field (cfg_field cfg) d) modisData) in
  let min := d3_min vals in
  let max := d3_max vals in
  let t := d3_ticks (to_number min) (to_number max) (Fin 5) in
  let colors :=
    if String.eqb (colorType cfg) "greens" then slice1 (schemeGreens 7)
    else if String.eqb (colorType cfg) "blues" then slice1 (schemeBlues 7)
    else if String.eqb (colorType cfg) "temp" then
      [Hex "#1d4ed8"; Hex "#2563eb"; Hex "#38bdf8";
       Hex "#facc15"; Hex "#fb923c"; Hex "#ef4444"]
    else slice1 (schemeGreys 7) in
  let scale := scaleThreshold t colors in
  mkStats min max t colors scale.

(** [computeVarStats] (lines 144-176): the entries written to [varStats]. *)
Definition computeVarStats (modisData : list (row xnum))
  : list (var_key * VariableStats) :=
  map (fun entry => (fst entry, computeStats modisData (snd entry))) VAR_CONFIG_entries.

Definition var_key_eqb (a b : var_key) : bool :=
  match a, b with
  | ndvi, ndvi | lstDay, lstDay | lstNight, lstNight | et, et => true
  | _, _ => false
  end.

(** The fill of the state [name] in [updateMap] (lines 256-276): nothing
    is drawn without [stats]; a state without a usable value gets the
    background colour. *)
Definition updateMap_fill (modisData : list (row xnum))
           (varStats : list (var_key * VariableStats))
           (currentVar : var_key) (currentYear currentMonth : Z) (name : string)
  : option color :=
  match Map_find var_key_eqb varStats currentVar with
  | None => None
  | Some stats =>
      let v := Map_get String.eqb
                 (valuesByState modisData currentVar currentYear currentMonth) name in
      if negb (is_valid v) then Some (Hex "#020617")
      else scale_apply (scale stats) v
  end.

(** The bins of [drawMapLegend] (lines 291-303):
    [const allStops = [stats.min, ...thresholds, stats.max];
     for (let i = 0; i < colors.length; i++)
       bins.push({ color: colors[i], from: allStops[i], to: allStops[i + 1] });] *)
Record LegendBin : Type := mkBin {
  bin_color : color;
  bin_from : jsval xnum;
  bin_to : jsval xnum
}.

Definition allStops (stats : VariableStats) : list (jsval xnum) :=
  min stats :: map (fun t => Some (Fin t)) (thresholds stats) ++ [max stats].

(** [allStops[i]]: [undefined] out of range. *)
Definition stop_at (stops : list (jsval xnum)) (i : nat) : jsval xnum :=
  match nth_error stops i with
  | Some v => v
  | None => None
  end.

Definition legend_bins (stats : VariableStats) : list LegendBin :=
  map (fun entry => mkBin (snd entry)
                          (stop_at (allStops stats) (fst entry))
                          (stop_at (allStops stats) (S (fst entry))))
      (combine (seq 0 (List.length (colors stats))) (colors stats)).

(** The labels [bin.from.toFixed(1)] and [bin.to.toFixed(1)] (line 314)
    need both stops of every bin: [toFixed] of [undefined] is a
    [TypeError]. *)
Definition legend_labels_defined (stats : VariableStats) : bool :=
  forallb (fun bin => match bin_from bin, bin_to bin with
                      | Some _, Some _ => true
                      | _, _ => false
                      end) (legend_bins stats).

(* ================================================================= *)
(** * The seasonal chart and the selection *)

(** One turn of the loop of [d3.extent(values, valueof)]:
    [if ((value = valueof(value, ++index, values)) != null) {
       if (min === undefined) { if (value >= value) min = max = value; }
       else { if (min > value) min = value; if (max < value) max = value; }
     }] *)
Definition extent_step (acc : jsval xnum * jsval xnum) (value : jsval xnum)
  : jsval xnum * jsval xnum :=
  match value with
  | Some x =>
      match fst acc with
      | None => if xge x x then (Some x, Some x) else acc
      | Some m =>
          (if xgt m x then Some x else Some m,
           if match snd acc with Some m' => xlt m' x | None => false end
           then Some x else snd acc)
      end
  | None => acc
  end.

(** [d3.extent(values, valueof)]: the pair [[min, max]]. *)
Definition d3_extent {A : Type} (values : list A) (valueof : A -> jsval xnum)
  : jsval xnum * jsval xnum :=
  fold_left (fun acc a => extent_step acc (valueof a)) values (None, None).

(** The title set by [updateStateTitle] (lines 475-477):
    [selectedState ? `${selectedState}: Seasonal Pattern`
                   : "U.S. Average Seasonal Pattern"]. *)
Definition stateTitle_text (selectedState : option string) : string :=
  if truthy selectedState
  then match selectedState with
       | Some s => s ++ ": Seasonal Pattern"
       | None => ""
       end
  else "U.S. Average Seasonal Pattern".

(** What the page shows, as far as it is followed here: the array bound
    to the line of the chart ([linePath.datum(series)], line 432) and to
    its circles (line 438), the domain handed to [yScale] before [nice()]
    (line 415), the text of [#stateTitle], the fill of each state of the
    map, and the name of the state with the highlighted outline. *)
Record View : Type := mkView {
  line_datum : list (SeriesPoint xnum);
  yDomain : jsval xnum * jsval xnum;
  stateTitle : string;
  fills : list (string * option color);
  highlighted : option string
}.

(** The module-level selection (lines 41-44) with the view;
    [chartReady] tells whether [initSeasonalChart] has run, that is
    whether [xScale], [yScale] and the groups of the chart exist. *)
Record App : Type := mkApp {
  currentVar : var_key;
  currentYear : Z;
  currentMonth : Z;
  selectedState : option string;
  chartReady : bool;
  view : View
}.

(** How a listener ends: normally, or with the [TypeError] of a method
    called on [undefined], in the state reached when it is thrown. *)
Inductive outcome : Type :=
| Done (app : App)
| Thrown (app : App).

Definition state_of (o : outcome) : App :=
  match o with
  | Done app => app
  | Thrown app => app
  end.

(** [f(); g();]: [g] runs when [f] has not thrown. *)
Definition and_then (o : outcome) (g : App -> outcome) : outcome :=
  match o with
  | Done app => g app
  | Thrown app => Thrown app
  end.

Section Handlers.
(** [modisData], [varStats] and the names of the features of [statesGeo]
    do not change after loading.  The elements of the page that the
    listeners look up are taken to exist. *)
Variable modisData : list (row xnum).
Variable varStats : list (var_key * VariableStats).
Variable statesGeo : list string.

Definition with_view (app : App) (v : View) : App :=
  mkApp (currentVar app) (currentYear app) (currentMonth app) (selectedState app)
        (chartReady app) v.

(** [updateStateTitle] (lines 471-481), the title. *)
Definition updateStateTitle (app : App) : App :=
  let v := view app in
  with_view app (mkView (line_datum v) (yDomain v) (stateTitle_text (selectedState app))
                        (fills v) (highlighted v)).

(** [updateSeasonalChart] (lines 404-469): nothing happens when the
    series is empty ([if (!series.length) return;]); otherwise
    [xScale.range(...)] is the first call on the chart, a [TypeError] when
    [xScale] is still [undefined]. *)
Definition updateSeasonalChart (app : App) : outcome :=
  let series := buildSeriesForState modisData (currentVar app) (selectedState app) in
  match series with
  | [] => Done app
  | _ :: _ =>
      if chartReady app then
        let v := view app in
        Done (updateStateTitle
                (with_view app (mkView series (d3_extent series (fun d => value d))
                                       (stateTitle v) (fills v) (highlighted v))))
      else Thrown app
  end.

(** [updateMap] (lines 255-279): nothing happens without statistics for
    the variable; otherwise every state gets its fill, and
    [drawMapLegend] (lines 281-317) throws a [TypeError] at the first bin
    with a stop that is [undefined]. *)
Definition updateMap (app : App) : outcome :=
  match Map_find var_key_eqb varStats (currentVar app) with
  | None => Done app
  | Some stats =>
      let v := view app in
      let app' :=
        with_view app
          (mkView (line_datum v) (yDomain v) (stateTitle v)
                  (map (fun name =>
                          (name, updateMap_fill modisData varStats (currentVar app)
                                   (currentYear app) (currentMonth app) name))
                       statesGeo)
                  (highlighted v)) in
      if legend_labels_defined stats then Done app' else Thrown app'
  end.

(** The listener of [varSelect] (lines 191-195). *)
Definition on_varSelect_change (key : var_key) (app : App) : outcome :=
  and_then
    (updateMap (mkApp key (currentYear app) (currentMonth app) (selectedState app)
                      (chartReady app) (view app)))
    updateSeasonalChart.

(** The listeners of [yearSlider] and [monthSelect] (lines 197-206). *)
Definition on_yearSlider_input (y : Z) (app : App) : outcome :=
  updateMap (mkApp (currentVar app) y (currentMonth app) (selectedState app)
                   (chartReady app) (view app)).

Definition on_monthSelect_change (m : Z) (app : App) : outcome :=
  updateMap (mkApp (currentVar app) (currentYear app) m (selectedState app)
                   (chartReady app) (view app)).

(** The click listener of a state of the map (lines 238-250):
    [selectedState = d.properties.name; updateSeasonalChart();
     updateStateTitle();], then the outline of the states of that name. *)
Definition on_state_click (name : string) (app : App) : outcome :=
  and_then
    (updateSeasonalChart
       (mkApp (currentVar app) (currentYear app) (currentMonth app) (Some name)
              (chartReady app) (view app)))
    (fun app1 =>
       let app2 := updateStateTitle app1 in
       let v := view app2 in
       Done (with_view app2 (mkView (line_datum v) (yDomain v) (stateTitle v)
                                    (fills v) (Some name)))).

(** The state when [init] (lines 516-522) reaches [initMap]: the
    selection of lines 41-44, nothing drawn. *)
Definition app_loaded : App :=
  mkApp ndvi 2014 1 None false (mkView [] (None, None) "" [] None).

(** [initMap(); initSeasonalChart();] at the end of [init]: [initMap]
    ends with [updateMap()], and [initSeasonalChart] creates the scales
    and ends with [updateSeasonalChart()]. *)
Definition init_views : outcome :=
  and_then (updateMap app_loaded)
    (fun app =>
       updateSeasonalChart
         (mkApp (currentVar app) (currentYear app) (currentMonth app) (selectedState app)
                true (view app))).
End Handlers.

(** What the reader can do on the page of the map: choose a variable,
    move the slider of the year, choose a month, click a state. *)
Inductive app_event : Type :=
| VarSelectChange (key : var_key)
| YearSliderInput (y : Z)
| MonthSelectChange (m : Z)
| StateClick (name : string).

Definition app_step (modisData : list (row xnum))
           (varStats : list (var_key * VariableStats)) (statesGeo : list string)
           (e : app_event) (app : App) : outcome :=
  match e with
  | VarSelectChange key => on_varSelect_change modisData varStats statesGeo key app
  | YearSliderInput y => on_yearSlider_input modisData varStats statesGeo y app
  | MonthSelectChange m => on_monthSelect_change modisData varStats statesGeo m app
  | StateClick name => on_state_click modisData name app
  end.

(** The listeners run one after the other; one that throws leaves the
    page as it is then, and the next event finds it so. *)
Fixpoint app_run (modisData : list (row xnum))
         (varStats : list (var_key * VariableStats)) (statesGeo : list string)
         (events : list app_event) (app : App) : list outcome :=
  match events with
  | [] => []
  | e :: rest =>
      let o := app_step modisData varStats statesGeo e app in
      o :: app_run modisData varStats statesGeo rest (state_of o)
  end.

(* ================================================================= *)
(** * Slides and typewriter *)

(** The class list of an element: tokens without repetition. *)
Definition classList_contains (classes : list string) (token : string) : bool :=
  existsb (String.eqb token) classes.

Definition classList_add (classes : list string) (token : string) : list string :=
  if classList_contains classes token then classes else classes ++ [token].

Definition classList_remove (classes : list string) (token : string) : list string :=
  filter (fun t => negb (String.eqb t token)) classes.

(** The element that [slide.querySelector(".typewriter")] finds: its
    attribute [data-fulltext], if any, and its text. *)
Record TypewriterEl : Type := mkTypewriter {
  data_fulltext : option string;
  textContent : string
}.

(** A slide: its class list and its typewriter element, if any. *)
Record SlideEl : Type := mkSlide {
  classList : list string;
  typewriter : option TypewriterEl
}.

(** A pending call [setTimeout(tick, 22)]: the closure of [tick], with
    the slide of its element [el], its text [full] and its counter [i]. *)
Record Timer : Type := mkTimer {
  timer_slide : nat;
  timer_full : string;
  timer_i : nat
}.

(** The module-level state of the slides (lines 6-7), the class lists of
    the pager dots, and the pending timers, oldest first. *)
Record Deck : Type := mkDeck {
  slides : list SlideEl;
  pagerDots : list (list string);
  currentSlide : nat;
  typingStarted : list nat;
  timers : list Timer
}.

(** [array[i] = f(array[i])] for an index in range. *)
Fixpoint update_nth {T : Type} (i : nat) (f : T -> T) (l : list T) : list T :=
  match l, i with
  | [], _ => []
  | x :: rest, O => f x :: rest
  | x :: rest, S j => x :: update_nth j f rest
  end.

Definition set_text (text : string) (slide : SlideEl) : SlideEl :=
  mkSlide (classList slide)
          (option_map (fun el => mkTypewriter (data_fulltext el) text) (typewriter slide)).

(** [tick] (lines 110-116):
    [if (i <= full.length) { el.textContent = full.slice(0, i); i += 1;
                             setTimeout(tick, 22); }] *)
Definition tick (t : Timer) (d : Deck) : Deck :=
  if (timer_i t <=? String.length (timer_full t))%nat then
    mkDeck (update_nth (timer_slide t)
                       (set_text (substring 0 (timer_i t) (timer_full t))) (slides d))
           (pagerDots d) (currentSlide d) (typingStarted d)
           (timers d ++ [mkTimer (timer_slide t) (timer_full t) (S (timer_i t))])
  else d.

(** The oldest pending timer fires. *)
Definition fire (d : Deck) : Deck :=
  match timers d with
  | [] => d
  | t :: rest =>
      tick t (mkDeck (slides d) (pagerDots d) (currentSlide d) (typingStarted d) rest)
  end.

(** [startTypewriterOnSlide(idx)] (lines 97-118); [None] is the
    [TypeError] of [slide.classList] when [slides[idx]] is [undefined]. *)
Definition startTypewriterOnSlide (idx : nat) (d : Deck) : option Deck :=
  match nth_error (slides d) idx with
  | None => None
  | Some slide =>
      if negb (classList_contains (classList slide) "type-slide") then Some d
      else if existsb (Nat.eqb idx) (typingStarted d) then Some d
      else match typewriter slide with
           | None => Some d
           | Some el =>
               let full := match data_fulltext el with
                           | Some s => s
                           | None => ""
                           end in
               Some (tick (mkTimer idx full 0)
                          (mkDeck (update_nth idx (set_text "") (slides d))
                                  (pagerDots d) (currentSlide d)
                                  (idx :: typingStarted d) (timers d)))
           end
  end.

Definition set_classes (f : list string -> list string) (slide : SlideEl) : SlideEl :=
  mkSlide (f (classList slide)) (typewriter slide).

(** [goToSlide(idx)] (lines 88-95); [None] is a [TypeError] on a slide
    or a dot that does not exist. *)
Definition goToSlide (idx : nat) (d : Deck) : option Deck :=
  match nth_error (slides d) (currentSlide d), nth_error (pagerDots d) (currentSlide d),
        nth_error (slides d) idx, nth_error (pagerDots d) idx with
  | Some _, Some _, Some _, Some _ =>
      let slides1 := update_nth (currentSlide d)
                       (set_classes (fun c => classList_remove c "active")) (slides d) in
      let dots1 := update_nth (currentSlide d)
                     (fun c => classList_remove c "active") (pagerDots d) in
      let slides2 := update_nth idx (set_classes (fun c => classList_add c "active")) slides1 in
      let dots2 := update_nth idx (fun c => classList_add c "active") dots1 in
      startTypewriterOnSlide idx
        (mkDeck slides2 dots2 idx (typingStarted d) (timers d))
  | _, _, _, _ => None
  end.

(** The indices of the listeners of [initSlides] (lines 70-83):
    [(currentSlide + 1) % slides.length] and
    [(currentSlide - 1 + slides.length) % slides.length]. *)
Definition next_index (d : Deck) : nat :=
  Z.to_nat (Z.rem (Z.of_nat (currentSlide d) + 1) (Z.of_nat (List.length (slides d)))).

Definition prev_index (d : Deck) : nat :=
  Z.to_nat (Z.rem (Z.of_nat (currentSlide d) - 1 + Z.of_nat (List.length (slides d)))
                  (Z.of_nat (List.length (slides d)))).

Definition on_nextSlide (d : Deck) : option Deck := goToSlide (next_index d) d.
Definition on_prevSlide (d : Deck) : option Deck := goToSlide (prev_index d) d.

(** The [keydown] listener (lines 77-83). *)
Definition on_keydown (key : string) (d : Deck) : option Deck :=
  if String.eqb key "ArrowRight" then on_nextSlide d
  else if String.eqb key "ArrowLeft" then on_prevSlide d
  else Some d.

(** [initSlides] (lines 57-86) on the slides of the document: one dot
    per slide, the first one active, then the typewriter of the current
    slide, which is slide 0 when the page loads. *)
Definition initSlides (document_slides : list SlideEl) : option Deck :=
  startTypewriterOnSlide 0
    (mkDeck document_slides
            (map (fun idx => if (idx =? 0)%nat then ["pager-dot"; "active"] else ["pager-dot"])
                 (seq 0 (List.length document_slides)))
            0 [] []).

(* ================================================================= *)
(** * Loading the data *)

(** A row of the file as [d3.csv] hands it to the row function: one
    string per column. *)
Record csv_row : Type := mkCsv {
  csv_NAME : string;
  csv_year : string;
  csv_month : string;
  csv_NDVI : string;
  csv_LST_Day : string;
  csv_LST_Night : string;
  csv_ET : string;
  csv_date : string
}.

Section LoadData.
Context {num : Type}.
(** The conversions of JavaScript, which the row function applies: [+s]
    to a number, [+s] to the integer of a year or a month, and
    [new Date(s)] to a time value. *)
Variable to_number_of_string : string -> num.
Variable to_integer : string -> Z.
Variable to_time : string -> Z.

(** [cell === "" ? null : +cell] *)
Definition parse_cell (cell : string) : jsval num :=
  if String.eqb cell "" then None else Some (to_number_of_string cell).

(** The row function of [loadData] (lines 124-133). *)
Definition loadData_row (d : csv_row) : row num :=
  mkRow (csv_NAME d) (to_integer (csv_year d)) (to_integer (csv_month d))
        (parse_cell (csv_NDVI d)) (parse_cell (csv_LST_Day d))
        (parse_cell (csv_LST_Night d)) (parse_cell (csv_ET d))
        (to_time (csv_date d)).

(** [modisData = rows] (line 136). *)
Definition loadData (rows : list csv_row) : list (row num) := map loadData_row rows.

(** The cell of a column. *)
Definition csv_cell (f : field) (d : csv_row) : string :=
  match f with
  | F_NDVI => csv_NDVI d
  | F_LST_Day => csv_LST_Day d
  | F_LST_Night => csv_LST_Night d
  | F_ET => csv_ET d
  end.
End LoadData.

(* ================================================================= *)
(** * Vocabulary of the properties, and example stores *)

Section GroupVocabulary.
Context {A K : Type}.
Variable eqb : K -> K -> bool.
Variable keyof : A -> K.

(** The values of key [k], in the order of the input. *)
Definition members (k : K) (values : list A) : list A :=
  filter (fun x => eqb (keyof x) k) values.

(** What holds of the groups once the values [done] have been read. *)
Record grouped (done : list A) (groups : list (K * list A)) : Prop := {
  grouped_NoDup : NoDup (map fst groups);
  grouped_members : forall k g, In (k, g) groups -> g = members k done /\ g <> [];
  grouped_covers : forall x, In x done -> In (keyof x) (map fst groups)
}.
End GroupVocabulary.

(** What holds of the triple that [tickSpec] returns: the increment is
    not zero, and the first and the last tick are within the bounds. *)
Definition ticks_ok (start stop : Q) (spec : Z * Z * Q) : Prop :=
  ~ (snd spec == 0)%Q /\
  (start <= tick_value (snd spec) (fst (fst spec)))%Q /\
  (tick_value (snd spec) (snd (fst spec)) <= stop)%Q.

Definition Qsum (l : list Q) : Q := fold_right Qplus 0%Q l.

(** The arithmetic mean of a list of rationals. *)
Definition arithmetic_mean (l : list Q) : Q :=
  (Qsum l / inject_Z (Z.of_nat (List.length l)))%Q.

(** The rationals of a list of exact numbers. *)
Definition rationals (l : list xnum) : list Q :=
  flat_map (fun x => match x with Fin q => [q] | XNaN => [] end) l.

(** A record with a reading of NDVI only. *)
Definition reading {num : Type} (name : string) (y m : Z) (v : jsval num) (t : Z)
  : row num :=
  mkRow name y m v None None None t.

(** The time values of the first days of three months (UTC). *)
Definition jan2020 : Z := 1577836800000.
Definition feb2020 : Z := 1580515200000.
Definition mar2020 : Z := 1583020800000.

(** March 2020: Nevada without a reading, Utah with a reading of zero. *)
Definition store_march : list (row xnum) :=
  [reading "Nevada" 2020 3 None mar2020;
   reading "Utah" 2020 3 (Some (Fin 0)) mar2020].

(** Two states over two months; no reading at all in February. *)
Definition store_gap : list (row xnum) :=
  [reading "Utah" 2020 2 None feb2020;
   reading "Nevada" 2020 1 (Some (Fin 0.25)) jan2020;
   reading "Nevada" 2020 2 None feb2020;
   reading "Utah" 2020 1 (Some (Fin 0.75)) jan2020;
   reading "Utah" 2020 3 (Some (Fin 0.5)) mar2020].

(** The three records of the end-to-end example, in binary64 and in
    exact arithmetic. *)
Definition store_end_to_end : list (row float) :=
  [reading "CA" 2020 1 (Some 0.2%float) jan2020;
   reading "CA" 2020 1 (Some 0.4%float) jan2020;
   reading "NY" 2020 1 (Some 0.9%float) jan2020].

Definition store_end_to_end_exact : list (row xnum) :=
  [reading "CA" 2020 1 (Some (Fin 0.2)) jan2020;
   reading "CA" 2020 1 (Some (Fin 0.4)) jan2020;
   reading "NY" 2020 1 (Some (Fin 0.9)) jan2020].

(** A record with a reading of evapotranspiration only. *)
Definition reading_ET (name : string) (y m : Z) (v : jsval xnum) (t : Z) : row xnum :=
  mkRow name y m None None None v t.

(** NDVI readings 0.1, 0.5 and 0.9. *)
Definition store_stats : list (row xnum) :=
  [reading "Nevada" 2020 1 (Some (Fin 0.1)) jan2020;
   reading "Utah" 2020 1 (Some (Fin 0.5)) jan2020;
   reading "Ohio" 2020 1 (Some (Fin 0.9)) jan2020].

(** NDVI readings 0 and 1. *)
Definition store_unit : list (row xnum) :=
  [reading "Nevada" 2020 1 (Some (Fin 0)) jan2020;
   reading "Utah" 2020 1 (Some (Fin 1)) jan2020].

(** Evapotranspiration readings 0.5, 1 and 5.5, which give the five
    ticks 1, 2, 3, 4, 5. *)
Definition store_bins : list (row xnum) :=
  [reading_ET "Nevada" 2020 1 (Some (Fin 0.5)) jan2020;
   reading_ET "Utah" 2020 1 (Some (Fin 1)) jan2020;
   reading_ET "Ohio" 2020 1 (Some (Fin 5.5)) jan2020].

(** The page after a click on Utah, over [store_gap], with the chart
    set up. *)
Definition app_utah : App :=
  mkApp ndvi 2014 1 (Some "Utah") true
        (mkView (buildSeriesForState store_gap ndvi (Some "Utah"))
                (d3_extent (buildSeriesForState store_gap ndvi (Some "Utah"))
                           (fun d => value d))
                "Utah: Seasonal Pattern" [] (Some "Utah")).

(** Three records with readings 0.5, 1 and 5.5 of every variable, which
    give each of them the five thresholds 1, 2, 3, 4, 5. *)
Definition store_full : list (row xnum) :=
  [mkRow "Nevada" 2014 1 (Some (Fin 0.5)) (Some (Fin 0.5)) (Some (Fin 0.5))
         (Some (Fin 0.5)) jan2020;
   mkRow "Utah" 2014 1 (Some (Fin 1)) (Some (Fin 1)) (Some (Fin 1)) (Some (Fin 1)) jan2020;
   mkRow "Ohio" 2014 2 (Some (Fin 5.5)) (Some (Fin 5.5)) (Some (Fin 5.5))
         (Some (Fin 5.5)) feb2020].

(** The fills of the map are those of the selected variable, year and
    month. *)
Definition map_in_sync (modisData : list (row xnum))
           (varStats : list (var_key * VariableStats)) (statesGeo : list string)
           (app : App) : Prop :=
  fills (view app) =
  map (fun name => (name, updateMap_fill modisData varStats (currentVar app)
                            (currentYear app) (currentMonth app) name)) statesGeo.

Definition is_done (o : outcome) : bool :=
  match o with
  | Done _ => true
  | Thrown _ => false
  end.

(** Exactly the current slide and its dot carry the class [active]. *)
Definition only_current_active (d : Deck) : Prop :=
  List.length (pagerDots d) = List.length (slides d) /\
  (currentSlide d < List.length (slides d))%nat /\
  (forall i c, nth_error (map classList (slides d)) i = Some c ->
               classList_contains c "active" = (i =? currentSlide d)%nat) /\
  (forall i c, nth_error (pagerDots d) i = Some c ->
               classList_contains c "active" = (i =? currentSlide d)%nat).

(** The text of the typewriter of a slide. *)
Definition text_at (idx : nat) (d : Deck) : option string :=
  match nth_error (slides d) idx with
  | Some slide => option_map textContent (typewriter slide)
  | None => None
  end.

(** What can happen to the slides: a click on [#nextSlide], on
    [#prevSlide] or on a dot, a key going down, a timer firing. *)
Inductive slide_event : Type :=
| ClickNext
| ClickPrev
| ClickDot (idx : nat)
| KeyDown (key : string)
| TimerFires.

Definition slide_step (e : slide_event) (d : Deck) : option Deck :=
  match e with
  | ClickNext => on_nextSlide d
  | ClickPrev => on_prevSlide d
  | ClickDot idx => goToSlide idx d
  | KeyDown key => on_keydown key d
  | TimerFires => Some (fire d)
  end.

Fixpoint slide_run (events : list slide_event) (d : Deck) : option Deck :=
  match events with
  | [] => Some d
  | e :: rest =>
      match slide_step e d with
      | Some d' => slide_run rest d'
      | None => None
      end
  end.

(** A dot exists for every slide, and only there. *)
Definition event_possible (d : Deck) (e : slide_event) : Prop :=
  match e with
  | ClickDot idx => (idx < List.length (slides d))%nat
  | _ => True
  end.

(** A page of three slides, the first one active and with a typewriter. *)
Definition document_three : list SlideEl :=
  [mkSlide ["slide"; "type-slide"; "active"] (Some (mkTypewriter (Some "Hi") ""));
   mkSlide ["slide"] None;
   mkSlide ["slide"; "type-slide"] (Some (mkTypewriter None "old"))].

(** The page of three slides once [initSlides] has made the dots. *)
Definition deck_three : Deck :=
  mkDeck document_three [["pager-dot"; "active"]; ["pager-dot"]; ["pager-dot"]] 0 [] [].

(** A file of three rows, none of them with a value of ET. *)
Definition csv_three : list csv_row :=
  [mkCsv "Utah" "2020" "3" "" "70" "40" "" "2020-03-01";
   mkCsv "Utah" "2020" "4" "0.4" "" "40" "" "2020-04-01";
   mkCsv "Nevada" "2020" "3" "" "75" "" "" "2020-03-01"].

(** Equality of exact values up to the representation of rationals. *)
Definition jsval_eq (a b : jsval xnum) : Prop :=
  match a, b with
  | Some (Fin p), Some (Fin q) => (p == q)%Q
  | Some XNaN, Some XNaN => True
  | None, None => True
  | _, _ => False
  end.

(* ================================================================= *)
(** * Facts about groups and rollups *)

Section GroupFacts.
Context {A K : Type}.
Variable eqb : K -> K -> bool.
Hypothesis eqb_eq : forall a b, eqb a b = true <-> a = b.
Variable keyof : A -> K.


Lemma eqb_refl_true k : eqb k k = true.
Proof. now apply eqb_eq. Qed.

Lemma eqb_neq a b : eqb a b = false <-> a <> b.
Proof.
  split; intros E.
  - intros ->. rewrite eqb_refl_true in E. discriminate.
  - destruct (eqb a b) eqn:F; [apply eqb_eq in F; contradiction | reflexivity].
Qed.

Lemma existsb_key keys key :
  existsb (fun k => eqb k key) keys = true <-> In key keys.
Proof.
  rewrite existsb_exists. split.
  - intros [k [Hin E]]. apply eqb_eq in E. now subst.
  - intros Hin. exists key. split; [assumption | apply eqb_refl_true].
Qed.

Lemma groups_push_keys (groups : list (K * list A)) key (x : A) :
  map fst (groups_push eqb groups key x) =
  if existsb (fun k => eqb k key) (map fst groups)
  then map fst groups else map fst groups ++ [key].
Proof.
  induction groups as [| [k g] rest IH]; simpl; [reflexivity |].
  destruct (eqb k key) eqn:E; simpl; [reflexivity |].
  rewrite IH. now destruct (existsb _ (map fst rest)).
Qed.

Lemma groups_push_NoDup (groups : list (K * list A)) key (x : A) :
  NoDup (map fst groups) -> NoDup (map fst (groups_push eqb groups key x)).
Proof.
  intros ND. rewrite groups_push_keys.
  destruct (existsb _ (map fst groups)) eqn:E; [assumption |].
  assert (~ In key (map fst groups)) as Hnot.
  { intros Hin. apply existsb_key in Hin. congruence. }
  clear E. induction (map fst groups) as [| k keys IH]; simpl.
  - constructor; [intros [] | constructor].
  - inversion ND; subst. constructor.
    + rewrite in_app_iff. intros [Hin | [-> | []]]; [contradiction |].
      apply Hnot. now left.
    + apply IH; [assumption |]. intros Hin. apply Hnot. now right.
Qed.

Lemma groups_push_In (groups : list (K * list A)) key (x : A) k g :
  NoDup (map fst groups) ->
  In (k, g) (groups_push eqb groups key x) ->
  (k <> key /\ In (k, g) groups) \/
  (k = key /\ ((exists g0, In (k, g0) groups /\ g = g0 ++ [x]) \/
               (~ In key (map fst groups) /\ g = [x]))).
Proof.
  induction groups as [| [k' g'] rest IH]; simpl; intros ND Hin.
  - destruct Hin as [E | []]. inversion E; subst. right. split; [reflexivity |].
    right. split; [intros [] | reflexivity].
  - inversion ND as [| ? ? Hnot ND']; subst.
    destruct (eqb k' key) eqn:E.
    + apply eqb_eq in E. subst k'. destruct Hin as [E | Hin].
      * inversion E; subst. right. split; [reflexivity |]. left.
        exists g'. split; [now left | reflexivity].
      * left. split; [| now right]. intros ->. apply Hnot.
        change key with (fst (key, g)). now apply in_map.
    + apply eqb_neq in E. destruct Hin as [E' | Hin].
      * inversion E'; subst. left. split; [assumption | now left].
      * destruct (IH ND' Hin) as [[Hk H1] | [Hk [[g0 [H1 H2]] | [H1 H2]]]].
        -- left. split; [assumption | now right].
        -- right. split; [assumption |]. left. exists g0. split; [now right | assumption].
        -- right. split; [assumption |]. right. split; [| assumption].
           intros [F | F]; [contradiction | now apply H1].
Qed.

Lemma members_app k l1 l2 :
  members eqb keyof k (l1 ++ l2) = members eqb keyof k l1 ++ members eqb keyof k l2.
Proof. apply filter_app. Qed.

Lemma members_nil_iff k values :
  members eqb keyof k values = [] <-> forall x, In x values -> keyof x <> k.
Proof.
  unfold members. split.
  - intros E x Hin F.
    assert (In x (filter (fun x => eqb (keyof x) k) values)) as Hx.
    { apply filter_In. split; [assumption | now apply eqb_eq]. }
    rewrite E in Hx. destruct Hx.
  - intros Hall. induction values as [| x rest IH]; simpl; [reflexivity |].
    destruct (eqb (keyof x) k) eqn:E.
    + apply eqb_eq in E. exfalso. apply (Hall x); [now left | assumption].
    + apply IH. intros y Hy. apply Hall. now right.
Qed.

Lemma grouped_push done groups x :
  grouped eqb keyof done groups ->
  grouped eqb keyof (done ++ [x]) (groups_push eqb groups (keyof x) x).
Proof.
  intros [ND Hmem Hcov]. constructor.
  - now apply groups_push_NoDup.
  - intros k g Hin. rewrite members_app. simpl.
    destruct (@groups_push_In groups (keyof x) x k g ND Hin)
      as [[Hk H1] | [Hk [[g0 [H1 H2]] | [H1 H2]]]].
    + assert (eqb (keyof x) k = false) as -> by (apply eqb_neq; congruence).
      rewrite app_nil_r. now apply Hmem.
    + subst k. rewrite eqb_refl_true. destruct (Hmem _ _ H1) as [-> _].
      split; [assumption |]. subst g. intros F. now apply app_eq_nil in F as [_ F].
    + subst k g. rewrite eqb_refl_true.
      assert (members eqb keyof (keyof x) done = []) as ->.
      { apply members_nil_iff. intros y Hy F. apply H1. rewrite <- F. now apply Hcov. }
      split; [reflexivity | discriminate].
  - intros y Hy. rewrite groups_push_keys.
    assert (In (keyof y) (map fst groups ++ [keyof x])) as Hin.
    { rewrite in_app_iff. apply in_app_or in Hy as [Hy | [-> | []]].
      - left. now apply Hcov.
      - right. now left. }
    destruct (existsb _ (map fst groups)) eqn:E; [| assumption].
    apply in_app_or in Hin as [Hin | [<- | []]]; [assumption |].
    now apply existsb_key.
Qed.

Lemma grouped_fold values : forall done groups,
  grouped eqb keyof done groups ->
  grouped eqb keyof (done ++ values)
          (fold_left (fun groups value => groups_push eqb groups (keyof value) value)
                     values groups).
Proof.
  induction values as [| x rest IH]; intros done groups G; simpl.
  - now rewrite app_nil_r.
  - replace (done ++ x :: rest) with ((done ++ [x]) ++ rest)
      by (rewrite <- app_assoc; reflexivity).
    apply IH. now apply grouped_push.
Qed.

Lemma d3_group_grouped values : grouped eqb keyof values (d3_group eqb values keyof).
Proof.
  apply (grouped_fold values (done := []) (groups := [])).
  constructor; simpl; [constructor | intros ? ? [] | intros ? []].
Qed.

Section Rollups.
Context {R : Type}.
Variable reduce : list A -> R.

Lemma d3_rollups_keys values :
  map fst (d3_rollups eqb values reduce keyof) = map fst (d3_group eqb values keyof).
Proof. unfold d3_rollups. rewrite map_map. reflexivity. Qed.

(** The keys of a rollup are pairwise different. *)
Lemma d3_rollups_NoDup values :
  NoDup (map fst (d3_rollups eqb values reduce keyof)).
Proof. rewrite d3_rollups_keys. apply (d3_group_grouped values). Qed.

(** An entry holds the reduction of all the values of its key, of
    which there is one at least. *)
Lemma d3_rollups_In values k r :
  In (k, r) (d3_rollups eqb values reduce keyof) ->
  r = reduce (members eqb keyof k values) /\ members eqb keyof k values <> [].
Proof.
  unfold d3_rollups. rewrite in_map_iff. intros [[k' g] [E Hin]].
  simpl in E. inversion E; subst.
  destruct (grouped_members (d3_group_grouped values) _ _ Hin) as [-> Hne].
  now split.
Qed.

(** Every key that occurs has its entry. *)
Lemma d3_rollups_complete values x :
  In x values ->
  In (keyof x, reduce (members eqb keyof (keyof x) values))
     (d3_rollups eqb values reduce keyof).
Proof.
  intros Hx. pose proof (d3_group_grouped values) as G.
  pose proof (grouped_covers G _ Hx) as Hk.
  apply in_map_iff in Hk as [[k g] [E Hin]]. simpl in E. subst k.
  destruct (grouped_members G _ _ Hin) as [-> _].
  unfold d3_rollups. apply in_map_iff.
  exists (keyof x, members eqb keyof (keyof x) values). now split.
Qed.
End Rollups.


Lemma Map_find_None {R : Type} (m : list (K * R)) k :
  ~ In k (map fst m) -> Map_find eqb m k = None.
Proof.
  induction m as [| [k' r'] rest IH]; simpl; intros Hnot; [reflexivity |].
  destruct (eqb k' k) eqn:E.
  - apply eqb_eq in E. exfalso. apply Hnot. now left.
  - apply IH. intros Hin. apply Hnot. now right.
Qed.
End GroupFacts.

(* ================================================================= *)
(** * Facts about the mean *)

Section MeanFacts.
Context {num : Type} `{Number num} {A : Type}.
Variable valueof : A -> jsval num.

Lemma mean_loop_spec values : forall count sum,
  mean_loop valueof values count sum =
  ((count + List.length (valid_values valueof values))%nat,
   fold_left add (valid_values valueof values) sum).
Proof.
  induction values as [| x rest IH]; intros count sum; simpl.
  - now rewrite Nat.add_0_r.
  - destruct (valueof x) as [v |]; [| apply IH].
    destruct (isNaN v); [apply IH |].
    rewrite IH. simpl. now rewrite Nat.add_succ_r.
Qed.

(** [d3.mean] divides the sum of the valid values, added from left to
    right, by their number, and is [undefined] when there is none. *)
Lemma d3_mean_spec values :
  d3_mean values valueof =
  match valid_values valueof values with
  | [] => None
  | vs => Some (div_count (fold_left add vs zero) (List.length vs))
  end.
Proof.
  unfold d3_mean. rewrite mean_loop_spec. simpl.
  now destruct (valid_values valueof values).
Qed.

Lemma valid_values_nil values :
  (forall x, In x values -> is_valid (valueof x) = false) ->
  valid_values valueof values = [].
Proof.
  induction values as [| x rest IH]; intros Hall; simpl; [reflexivity |].
  pose proof (Hall x (or_introl eq_refl)) as Hx. unfold is_valid in Hx.
  destruct (valueof x) as [v |].
  - destruct (isNaN v); [| discriminate]. apply IH. intros y Hy. apply Hall. now right.
  - apply IH. intros y Hy. apply Hall. now right.
Qed.

Lemma d3_mean_undefined values :
  (forall x, In x values -> is_valid (valueof x) = false) ->
  d3_mean values valueof = None.
Proof. intros Hall. rewrite d3_mean_spec, valid_values_nil; [reflexivity | assumption]. Qed.
End MeanFacts.

(* ================================================================= *)
(** * Facts about sorting *)

Section SortFacts.
Context {T : Type}.
Variable key : T -> Z.


Lemma sort_insert_Permutation a sorted :
  Permutation (a :: sorted) (sort_insert (fun a b : T => key a - key b) a sorted).
Proof.
  induction sorted as [| b rest IH]; simpl; [reflexivity |].
  destruct (key a - key b <=? 0); [reflexivity |].
  rewrite perm_swap. now constructor.
Qed.

Lemma Array_sort_Permutation array :
  Permutation array (Array_sort (fun a b : T => key a - key b) array).
Proof.
  induction array as [| a rest IH]; simpl; [constructor |].
  rewrite <- sort_insert_Permutation. now constructor.
Qed.

Lemma sort_insert_sorted a sorted :
  StronglySorted (fun a b : T => key a <= key b) sorted ->
  StronglySorted (fun a b : T => key a <= key b)
                 (sort_insert (fun a b : T => key a - key b) a sorted).
Proof.
  induction sorted as [| b rest IH]; simpl; intros S.
  - repeat constructor.
  - inversion S as [| ? ? S' Hall]; subst.
    destruct (key a - key b <=? 0) eqn:E.
    + apply Z.leb_le in E. constructor; [assumption |]. constructor; [lia |].
      rewrite Forall_forall in *. intros c Hc. specialize (Hall c Hc). simpl in Hall. lia.
    + apply Z.leb_gt in E. constructor; [now apply IH |].
      rewrite Forall_forall in *. intros c Hc.
      apply (Permutation_in _ (Permutation_sym (sort_insert_Permutation a rest))) in Hc.
      destruct Hc as [<- | Hc]; [lia | now apply Hall].
Qed.

Lemma Array_sort_sorted array :
  StronglySorted (fun a b : T => key a <= key b)
                 (Array_sort (fun a b : T => key a - key b) array).
Proof.
  induction array as [| a rest IH]; simpl; [constructor |].
  now apply sort_insert_sorted.
Qed.

Lemma sorted_NoDup_strict l :
  StronglySorted (fun a b : T => key a <= key b) l -> NoDup (map key l) ->
  StronglySorted (fun a b : T => key a < key b) l.
Proof.
  induction l as [| a rest IH]; intros S ND; [constructor |].
  inversion S as [| ? ? S' Hall]; subst. simpl in ND.
  inversion ND as [| ? ? Hnot ND']; subst.
  constructor; [now apply IH |].
  rewrite Forall_forall in *. intros c Hc. specialize (Hall c Hc). simpl in Hall.
  assert (key a <> key c) as Hne.
  { intros E. apply Hnot. rewrite E. now apply in_map. }
  lia.
Qed.

Lemma NoDup_map_filter (f : T -> bool) l :
  NoDup (map key l) -> NoDup (map key (filter f l)).
Proof.
  induction l as [| a rest IH]; simpl; intros ND; [constructor |].
  inversion ND as [| ? ? Hnot ND']; subst.
  destruct (f a); simpl; [| now apply IH].
  constructor; [| now apply IH].
  intros Hin. apply Hnot. apply in_map_iff in Hin as [c [E Hc]].
  apply filter_In in Hc as [Hc _]. rewrite <- E. now apply in_map.
Qed.
End SortFacts.

(* ================================================================= *)
(** * Facts about the aggregator *)

Section AggregatorFacts.
Context {num : Type} `{Number num}.

Lemma string_eqb_eq (a b : string) : String.eqb a b = true <-> a = b.
Proof. apply String.eqb_eq. Qed.

Lemma month_filter_true y m (d : row num) :
  month_filter y m d = true <-> year d = y /\ month d = m.
Proof. unfold month_filter. rewrite andb_true_iff, !Z.eqb_eq. reflexivity. Qed.

(** The entry of a state in [valuesByState] is the mean over the records
    of that state in the selected month, of which there is one at least. *)
Lemma valuesByState_In (modisData : list (row num)) var y m s v :
  In (s, v) (valuesByState modisData var y m) ->
  v = d3_mean (members String.eqb (@state num) s (filter (month_filter y m) modisData))
              (get_field (cfg_field (VAR_CONFIG var))) /\
  exists d, In d modisData /\ year d = y /\ month d = m /\ state d = s.
Proof.
  intros Hin. apply (d3_rollups_In _ string_eqb_eq) in Hin as [-> Hne]. split; [reflexivity |].
  destruct (members String.eqb (@state num) s (filter (month_filter y m) modisData))
    as [| d rest] eqn:E; [contradiction |].
  assert (In d (d :: rest)) as Hd by now left.
  rewrite <- E in Hd. unfold members in Hd.
  apply filter_In in Hd as [Hd Hs]. apply filter_In in Hd as [Hd Hym].
  apply month_filter_true in Hym as [Hy Hm]. apply string_eqb_eq in Hs.
  exists d. repeat split; assumption.
Qed.



(** A state without a record in the selected month has no entry. *)
Lemma valuesByState_absent (modisData : list (row num)) var y m s :
  (forall d, In d modisData -> year d = y -> month d = m -> state d <> s) ->
  Map_has String.eqb (valuesByState modisData var y m) s = false.
Proof.
  intros Hnone. unfold Map_has. rewrite (Map_find_None _ string_eqb_eq); [reflexivity |].
  intros Hin. apply in_map_iff in Hin as [[s' v] [E Hin]]. simpl in E. subst s'.
  apply valuesByState_In in Hin as [_ [d [Hd [Hy [Hm Hs]]]]].
  now apply (Hnone d).
Qed.

Lemma buildSeriesForState_unfold (modisData : list (row num)) var stateName :
  buildSeriesForState modisData var stateName =
  Array_sort (fun a b => point_date a - point_date b)
             (filter (fun d => is_valid (value d)) (byDate modisData var stateName)).
Proof. reflexivity. Qed.

Lemma byDate_dates (modisData : list (row num)) var stateName :
  NoDup (map (@point_date num) (byDate modisData var stateName)).
Proof.
  unfold byDate. rewrite map_map. simpl.
  apply (d3_rollups_NoDup _ Z.eqb_eq).
Qed.

Lemma byDate_In (modisData : list (row num)) var stateName p :
  In p (byDate modisData var stateName) ->
  value p = d3_mean (members Z.eqb (@date num) (point_date p)
                       (filter (state_filter stateName) modisData))
                    (get_field (cfg_field (VAR_CONFIG var))).
Proof.
  unfold byDate. rewrite in_map_iff. intros [[t v] [<- Hin]]. simpl.
  now apply (d3_rollups_In _ Z.eqb_eq) in Hin as [-> _].
Qed.

(** The series has the points of [byDate] that carry a number. *)
Lemma buildSeriesForState_In (modisData : list (row num)) var stateName p :
  In p (buildSeriesForState modisData var stateName) <->
  In p (byDate modisData var stateName) /\ is_valid (value p) = true.
Proof.
  rewrite buildSeriesForState_unfold. split; intros Hin.
  - apply (Permutation_in _ (Permutation_sym (Array_sort_Permutation _ _))) in Hin.
    now apply filter_In in Hin.
  - apply (Permutation_in _ (Array_sort_Permutation _ _)).
    now apply filter_In.
Qed.

Lemma state_filter_name (name : string) (d : row num) :
  name <> "" -> state_filter (Some name) d = String.eqb (state d) name.
Proof.
  intros Hne. unfold state_filter, truthy.
  destruct (String.eqb name "") eqn:E; [apply String.eqb_eq in E; contradiction | reflexivity].
Qed.
End AggregatorFacts.

(* ================================================================= *)
(** * Facts about the mean in exact arithmetic *)

Lemma valid_values_finite {A : Type} (valueof : A -> jsval xnum) values :
  Forall (fun x => xisNaN x = false) (valid_values valueof values).
Proof.
  induction values as [| x rest IH]; simpl; [constructor |].
  destruct (valueof x) as [[| q] |]; simpl; try assumption.
  constructor; [reflexivity | assumption].
Qed.

Lemma fold_xadd_finite l : forall a,
  Forall (fun x => xisNaN x = false) l ->
  exists q, fold_left xadd l (Fin a) = Fin q /\ (q == a + Qsum (rationals l))%Q /\
            List.length (rationals l) = List.length l.
Proof.
  induction l as [| x rest IH]; intros a Hfin; simpl.
  - exists a. split; [reflexivity | split; [| reflexivity]]. unfold Qsum. simpl. ring.
  - inversion Hfin as [| ? ? Hx Hrest]; subst. destruct x as [| q]; [discriminate |].
    destruct (IH (a + q)%Q Hrest) as [r [E [Hr Hlen]]].
    exists r. simpl. split; [assumption | split; [| now rewrite Hlen]].
    rewrite Hr. unfold Qsum. simpl. ring.
Qed.

(** In exact arithmetic [d3.mean] is the arithmetic mean of the valid
    values, and [undefined] when there is none. *)
Lemma d3_mean_exact {A : Type} (values : list A) (valueof : A -> jsval xnum) :
  match d3_mean values valueof with
  | Some (Fin m) =>
      valid_values valueof values <> [] /\
      (m == arithmetic_mean (rationals (valid_values valueof values)))%Q
  | Some XNaN => False
  | None => valid_values valueof values = []
  end.
Proof.
  rewrite d3_mean_spec.
  pose proof (valid_values_finite valueof values) as Hfin.
  destruct (valid_values valueof values) as [| v vs] eqn:E; [reflexivity |].
  destruct (fold_xadd_finite 0 Hfin) as [q [Hq [Hsum Hlen]]].
  cbv zeta. change (fold_left add (v :: vs) zero) with (fold_left xadd (v :: vs) (Fin 0)).
  rewrite Hq. simpl div_count. unfold xdiv_count. split; [discriminate |].
  unfold arithmetic_mean. rewrite Hlen, Hsum. apply Qdiv_comp; [ring | reflexivity].
Qed.

(* ================================================================= *)
(** * Facts about the binary search *)

Lemma Qle_bool_refl q : Qle_bool q q = true.
Proof. apply Qle_bool_iff. apply Qle_refl. Qed.

Lemma ascending_refl q : ascending (Some (Fin q)) (Some (Fin q)) = Fin 0.
Proof.
  unfold ascending, xgt, xge, xlt, xle, Qlt_bool. now rewrite Qle_bool_refl.
Qed.

(** The test of the loop, [compare2(a[mid], x) <= 0], holds when [a[mid]]
    exists and is at most [x]. *)
Lemma bisect_test_spec a mid q :
  xle (ascending (array_get a mid) (Some (Fin q))) (Fin 0) =
  match nth_error a mid with
  | Some t => Qle_bool t q
  | None => false
  end.
Proof.
  unfold array_get. destruct (nth_error a mid) as [t |]; simpl; [| reflexivity].
  unfold xgt, xge, xlt, xle, Qlt_bool.
  destruct (Qle_bool q t) eqn:Eqt, (Qle_bool t q) eqn:Etq; simpl; try reflexivity.
  exfalso.
  assert (~ (q <= t)%Q) as H1 by (rewrite <- Qle_bool_iff; congruence).
  assert (~ (t <= q)%Q) as H2 by (rewrite <- Qle_bool_iff; congruence).
  apply Qnot_le_lt in H1. apply H2. now apply Qlt_le_weak.
Qed.

Lemma bisect_test_mono a mid p q :
  (p <= q)%Q ->
  xle (ascending (array_get a mid) (Some (Fin p))) (Fin 0) = true ->
  xle (ascending (array_get a mid) (Some (Fin q))) (Fin 0) = true.
Proof.
  intros Hpq. rewrite !bisect_test_spec. destruct (nth_error a mid) as [t |]; [| trivial].
  rewrite !Qle_bool_iff. intros Htp. now apply Qle_trans with p.
Qed.

Lemma div2_between lo hi : (lo < hi)%nat -> (lo <= Nat.div2 (lo + hi) < hi)%nat.
Proof.
  intros Hlt. rewrite Nat.div2_div.
  split; [apply Nat.div_le_lower_bound | apply Nat.Div0.div_lt_upper_bound]; lia.
Qed.

(** The loop keeps its result between [lo] and [hi]. *)
Lemma bisect_loop_bounds a x : forall fuel lo hi,
  (lo < hi)%nat -> (lo <= bisect_loop fuel a x lo hi <= hi)%nat.
Proof.
  induction fuel as [| fuel IH]; intros lo hi Hlt; simpl; [lia |].
  pose proof (div2_between Hlt) as Hmid.
  destruct (xle (ascending (array_get a (Nat.div2 (lo + hi))) (Some x)) (Fin 0)).
  - destruct (S (Nat.div2 (lo + hi)) <? hi)%nat eqn:E.
    + apply Nat.ltb_lt in E. specialize (IH _ _ E). lia.
    + lia.
  - destruct (lo <? Nat.div2 (lo + hi))%nat eqn:E.
    + apply Nat.ltb_lt in E. specialize (IH _ _ E). lia.
    + lia.
Qed.

(** [hi - lo] units of fuel are enough: more fuel does not change the
    result. *)
Lemma bisect_loop_fuel a x extra : forall fuel lo hi,
  (lo < hi)%nat -> (hi - lo <= fuel)%nat ->
  bisect_loop (fuel + extra) a x lo hi = bisect_loop fuel a x lo hi.
Proof.
  induction fuel as [| fuel IH]; intros lo hi Hlt Hfuel; [lia |]. simpl.
  pose proof (div2_between Hlt) as Hmid.
  destruct (xle (ascending (array_get a (Nat.div2 (lo + hi))) (Some x)) (Fin 0)).
  - destruct (S (Nat.div2 (lo + hi)) <? hi)%nat eqn:E; [| reflexivity].
    apply Nat.ltb_lt in E. apply IH; lia.
  - destruct (lo <? Nat.div2 (lo + hi))%nat eqn:E; [| reflexivity].
    apply Nat.ltb_lt in E. apply IH; lia.
Qed.

(** The loop is monotonic in the value searched, whatever the array. *)
Lemma bisect_loop_mono a p q : (p <= q)%Q -> forall fuel lo hi,
  (lo < hi)%nat ->
  (bisect_loop fuel a (Fin p) lo hi <= bisect_loop fuel a (Fin q) lo hi)%nat.
Proof.
  intros Hpq. induction fuel as [| fuel IH]; intros lo hi Hlt; simpl; [lia |].
  pose proof (div2_between Hlt) as Hmid.
  pose proof (@bisect_test_mono a (Nat.div2 (lo + hi)) p q Hpq) as Hmono.
  destruct (xle (ascending (array_get a (Nat.div2 (lo + hi))) (Some (Fin p))) (Fin 0)).
  - rewrite (Hmono eq_refl).
    destruct (S (Nat.div2 (lo + hi)) <? hi)%nat eqn:E; [| lia].
    apply Nat.ltb_lt in E. now apply IH.
  - destruct (xle (ascending (array_get a (Nat.div2 (lo + hi))) (Some (Fin q))) (Fin 0)).
    + assert (bisect_loop_left :
                ((if (lo <? Nat.div2 (lo + hi))%nat
                  then bisect_loop fuel a (Fin p) lo (Nat.div2 (lo + hi))
                  else lo) <= Nat.div2 (lo + hi))%nat).
      { destruct (lo <? Nat.div2 (lo + hi))%nat eqn:E; [| lia].
        apply Nat.ltb_lt in E. pose proof (bisect_loop_bounds a (Fin p) fuel E). lia. }
      assert (bisect_loop_right :
                (S (Nat.div2 (lo + hi)) <=
                 (if (S (Nat.div2 (lo + hi)) <? hi)%nat
                  then bisect_loop fuel a (Fin q) (S (Nat.div2 (lo + hi))) hi
                  else S (Nat.div2 (lo + hi))))%nat).
      { destruct (S (Nat.div2 (lo + hi)) <? hi)%nat eqn:E; [| lia].
        apply Nat.ltb_lt in E. pose proof (bisect_loop_bounds a (Fin q) fuel E). lia. }
      lia.
    + destruct (lo <? Nat.div2 (lo + hi))%nat eqn:E; [| lia].
      apply Nat.ltb_lt in E. now apply IH.
Qed.

Lemma bisectRight_finite a q lo hi :
  bisectRight a (Fin q) lo hi =
  if (lo <? hi)%nat then bisect_loop (hi - lo) a (Fin q) lo hi else lo.
Proof. unfold bisectRight. rewrite ascending_refl. reflexivity. Qed.

Lemma scale_index_mono s p q :
  (p <= q)%Q -> (scale_index s (Fin p) <= scale_index s (Fin q))%nat.
Proof.
  intros Hpq. unfold scale_index. rewrite !bisectRight_finite.
  destruct (0 <? n s)%nat eqn:E; [| lia].
  apply Nat.ltb_lt in E. now apply bisect_loop_mono.
Qed.

(* ================================================================= *)
(** * Facts about the decimal logarithm *)

Section Log10.
Local Open Scope Q_scope.







End Log10.

(* ================================================================= *)
(** * Facts about ticks *)

Section TickFacts.
Local Open Scope Q_scope.

Lemma Qlt_bool_true p q : Qlt_bool p q = true <-> p < q.
Proof.
  unfold Qlt_bool. rewrite negb_true_iff. split.
  - intros E. apply Qnot_le_lt. rewrite <- Qle_bool_iff. congruence.
  - intros Hlt. destruct (Qle_bool q p) eqn:E; [| reflexivity].
    apply Qle_bool_iff in E. exfalso. now apply (Qlt_not_le p q).
Qed.

Lemma Qlt_bool_false p q : Qlt_bool p q = false <-> q <= p.
Proof.
  unfold Qlt_bool. rewrite negb_false_iff. apply Qle_bool_iff.
Qed.

Lemma pow10_pos p : 0 < pow10 p.
Proof. apply Qpower_0_lt. reflexivity. Qed.

Lemma Math_round_up y : y <= inject_Z (Math_round y + 1).
Proof. unfold Math_round. pose proof (Qlt_floor (y + (1 # 2))). lra. Qed.

Lemma Math_round_down y : inject_Z (Math_round y - 1) <= y.
Proof.
  unfold Math_round. pose proof (Qfloor_le (y + (1 # 2))) as Hle.
  unfold Z.sub. rewrite inject_Z_plus. change (inject_Z (- (1))) with (- (1)). lra.
Qed.

Lemma tick_value_pos inc i : 0 < inc -> tick_value inc i == inject_Z i * inc.
Proof.
  intros Hpos. unfold tick_value.
  assert (Qlt_bool inc 0 = false) as -> by (apply Qlt_bool_false; lra). reflexivity.
Qed.

Lemma tick_value_neg inc i : 0 < inc -> tick_value (- inc) i == inject_Z i / inc.
Proof.
  intros Hpos. unfold tick_value.
  assert (Qlt_bool (- inc) 0 = true) as -> by (apply Qlt_bool_true; lra).
  now rewrite Qopp_involutive.
Qed.

Lemma tickSpec_body_ok start stop count :
  ticks_ok start stop (tickSpec_body start stop count).
Proof.
  unfold tickSpec_body.
  set (step := (stop - start) / Qmax 0 count).
  set (power := floor_log10 step).
  set (error := step / pow10 power).
  set (factor := if ge_sqrt error 50 then 10
                 else if ge_sqrt error 10 then 5
                 else if ge_sqrt error 2 then 2 else 1).
  assert (0 < factor) as Hfactor.
  { unfold factor. destruct (ge_sqrt error 50); [reflexivity |].
    destruct (ge_sqrt error 10); [reflexivity |].
    destruct (ge_sqrt error 2); reflexivity. }
  destruct (power <? 0)%Z.
  - set (inc := pow10 (- power) / factor).
    assert (0 < inc) as Hinc.
    { unfold inc. apply Qlt_shift_div_l; [assumption |].
      pose proof (pow10_pos (- power)). lra. }
    unfold ticks_ok. cbn [fst snd]. split; [lra |]. rewrite !tick_value_neg by assumption.
    split.
    + destruct (Qlt_bool (inject_Z (Math_round (start * inc)) / inc) start) eqn:E.
      * apply Qle_shift_div_l; [assumption |]. apply Math_round_up.
      * now apply Qlt_bool_false in E.
    + destruct (Qlt_bool stop (inject_Z (Math_round (stop * inc)) / inc)) eqn:E.
      * apply Qle_shift_div_r; [assumption |]. apply Math_round_down.
      * now apply Qlt_bool_false in E.
  - set (inc := pow10 power * factor).
    assert (0 < inc) as Hinc.
    { unfold inc. apply Qmult_lt_0_compat; [apply pow10_pos | assumption]. }
    unfold ticks_ok. cbn [fst snd]. split; [lra |]. rewrite !tick_value_pos by assumption.
    split.
    + destruct (Qlt_bool (inject_Z (Math_round (start / inc)) * inc) start) eqn:E.
      * pose proof (Math_round_up (start / inc)) as Hup.
        apply (Qmult_le_compat_r _ _ inc) in Hup; [| lra].
        rewrite (Qmult_comm (start / inc)), Qmult_div_r in Hup; [assumption | lra].
      * now apply Qlt_bool_false in E.
    + destruct (Qlt_bool stop (inject_Z (Math_round (stop / inc)) * inc)) eqn:E.
      * pose proof (Math_round_down (stop / inc)) as Hdown.
        apply (Qmult_le_compat_r _ _ inc) in Hdown; [| lra].
        rewrite (Qmult_comm (stop / inc)), Qmult_div_r in Hdown; [assumption | lra].
      * now apply Qlt_bool_false in E.
Qed.

Lemma tickSpec_ok start stop : forall fuel count,
  ticks_ok start stop (tickSpec fuel start stop count).
Proof.
  induction fuel as [| fuel IH]; intros count; simpl;
    pose proof (tickSpec_body_ok start stop count) as Hbody;
    destruct (tickSpec_body start stop count) as [[i1 i2] inc];
    destruct ((i2 <? i1)%Z && Qle_bool (1 # 2) count && Qlt_bool count 2);
    try assumption.
  apply IH.
Qed.

(** Two doublings are enough: a count in [0.5, 2) that is still below 2
    when doubled was below 1, and is 2 at least when doubled again. *)
Lemma tickSpec_fuel start stop count extra :
  tickSpec (2 + extra) start stop count = tickSpec 2 start stop count.
Proof.
  simpl.
  destruct (tickSpec_body start stop count) as [[i1 i2] inc].
  destruct ((i2 <? i1)%Z && Qle_bool (1 # 2) count && Qlt_bool count 2) eqn:E1;
    [| reflexivity].
  destruct (tickSpec_body start stop (count * 2)) as [[j1 j2] jnc].
  destruct ((j2 <? j1)%Z && Qle_bool (1 # 2) (count * 2) && Qlt_bool (count * 2) 2) eqn:E2;
    [| reflexivity].
  destruct (tickSpec_body start stop (count * 2 * 2)) as [[k1 k2] knc] eqn:Ek.
  assert (Qlt_bool (count * 2 * 2) 2 = false) as E3.
  { apply andb_true_iff in E1 as [E1 _]. apply andb_true_iff in E1 as [_ E1].
    apply andb_true_iff in E2 as [_ E2].
    apply Qle_bool_iff in E1. apply Qlt_bool_true in E2. apply Qlt_bool_false. lra. }
  destruct extra; simpl; rewrite Ek, E3, andb_false_r; reflexivity.
Qed.
End TickFacts.

Section TickOrder.
Local Open Scope Q_scope.

Lemma tick_value_lt inc i j :
  ~ inc == 0 -> (i < j)%Z -> tick_value inc i < tick_value inc j.
Proof.
  intros Hinc Hij. rewrite Zlt_Qlt in Hij. unfold tick_value.
  destruct (Qlt_bool inc 0) eqn:E.
  - apply Qlt_bool_true in E. unfold Qdiv. apply Qmult_lt_compat_r; [| assumption].
    apply Qinv_lt_0_compat. lra.
  - apply Qlt_bool_false in E. apply Qmult_lt_compat_r; [| assumption].
    destruct (Qlt_le_dec 0 inc) as [Hpos | Hneg]; [assumption |].
    exfalso. apply Hinc. lra.
Qed.

Lemma tick_value_le inc i j :
  ~ inc == 0 -> (i <= j)%Z -> tick_value inc i <= tick_value inc j.
Proof.
  intros Hinc Hij. destruct (Z.eq_dec i j) as [-> | Hne]; [apply Qle_refl |].
  apply Qlt_le_weak. apply tick_value_lt; [assumption | lia].
Qed.

Lemma map_seq_sorted (f : nat -> Q) : forall len first,
  (forall i j, (i < j)%nat -> f i < f j) ->
  StronglySorted Qlt (map f (seq first len)).
Proof.
  induction len as [| len IH]; intros first Hf; simpl; constructor.
  - now apply IH.
  - apply Forall_forall. intros t Ht. apply in_map_iff in Ht as [j [<- Hj]].
    apply in_seq in Hj. apply Hf. lia.
Qed.

(** The shape of [d3.ticks] on an interval in the right order. *)
Lemma d3_ticks_forward start stop count :
  start < stop ->
  d3_ticks (Fin start) (Fin stop) (Fin count) = [] \/
  exists i1 i2 inc,
    ticks_ok start stop (i1, i2, inc) /\
    d3_ticks (Fin start) (Fin stop) (Fin count) =
    map (fun i => tick_value inc (i1 + Z.of_nat i)) (seq 0 (Z.to_nat (i2 - i1 + 1))).
Proof.
  intros Hlt. unfold d3_ticks.
  destruct (negb (Qlt_bool 0 count)); [now left |].
  assert (Qeq_bool start stop = false) as ->.
  { destruct (Qeq_bool start stop) eqn:E; [| reflexivity].
    apply Qeq_bool_eq in E. lra. }
  assert (Qlt_bool stop start = false) as -> by (apply Qlt_bool_false; lra).
  pose proof (tickSpec_ok start stop 2 count) as Hok.
  destruct (tickSpec 2 start stop count) as [[i1 i2] inc].
  destruct (negb (i1 <=? i2)%Z); [now left |].
  right. exists i1, i2, inc. split; [assumption |].
  unfold tick_value. destruct (Qlt_bool inc 0); reflexivity.
Qed.

(** On an interval in the right order, the ticks increase strictly and
    lie within the interval, bounds included. *)
Lemma d3_ticks_ascending start stop count :
  start < stop ->
  StronglySorted Qlt (d3_ticks (Fin start) (Fin stop) (Fin count)) /\
  Forall (fun t => start <= t <= stop) (d3_ticks (Fin start) (Fin stop) (Fin count)).
Proof.
  intros Hlt.
  destruct (d3_ticks_forward count Hlt) as [-> | [i1 [i2 [inc [[Hinc [H1 H2]] ->]]]]].
  - split; constructor.
  - cbn [fst snd] in Hinc, H1, H2. split.
    + apply map_seq_sorted. intros i j Hij. apply tick_value_lt; [assumption | lia].
    + apply Forall_forall. intros t Ht. apply in_map_iff in Ht as [i [<- Hi]].
      apply in_seq in Hi. split.
      * apply Qle_trans with (tick_value inc i1); [assumption |].
        apply tick_value_le; [assumption | lia].
      * apply Qle_trans with (tick_value inc i2); [| assumption].
        apply tick_value_le; [assumption | lia].
Qed.
End TickOrder.

(* ================================================================= *)
(** * Facts about the extrema *)

Section Extrema.
Local Open Scope Q_scope.

Lemma is_valid_Fin (v : jsval xnum) : is_valid v = true -> exists q, v = Some (Fin q).
Proof. destruct v as [[| q] |]; simpl; try discriminate. intros _. now exists q. Qed.

Lemma min_fold values : Forall (fun v => is_valid v = true) values -> forall m,
  exists r, fold_left min_step values (Some (Fin m)) = Some (Fin r) /\
            (r = m \/ In (Some (Fin r)) values) /\ r <= m /\
            forall q, In (Some (Fin q)) values -> r <= q.
Proof.
  induction 1 as [| v rest Hv Hrest IH]; intros m; simpl.
  - exists m. repeat split; [now left | lra | intros q []].
  - destruct (is_valid_Fin _ Hv) as [x ->]. simpl. unfold xgt, xlt.
    destruct (Qlt_bool x m) eqn:E.
    + apply Qlt_bool_true in E. destruct (IH x) as [r [Hr [Hin [Hle Hall]]]].
      exists r. split; [assumption |]. split; [| split; [lra |]].
      * right. destruct Hin as [-> | Hin]; [now left | now right].
      * intros q [Hq | Hq]; [inversion Hq; subst; assumption | now apply Hall].
    + apply Qlt_bool_false in E. destruct (IH m) as [r [Hr [Hin [Hle Hall]]]].
      exists r. split; [assumption |]. split; [| split; [assumption |]].
      * destruct Hin as [Heq | Hin]; [now left | right; now right].
      * intros q [Hq | Hq]; [inversion Hq; subst; lra | now apply Hall].
Qed.

Lemma max_fold values : Forall (fun v => is_valid v = true) values -> forall m,
  exists r, fold_left max_step values (Some (Fin m)) = Some (Fin r) /\
            (r = m \/ In (Some (Fin r)) values) /\ m <= r /\
            forall q, In (Some (Fin q)) values -> q <= r.
Proof.
  induction 1 as [| v rest Hv Hrest IH]; intros m; simpl.
  - exists m. repeat split; [now left | lra | intros q []].
  - destruct (is_valid_Fin _ Hv) as [x ->]. simpl. unfold xlt.
    destruct (Qlt_bool m x) eqn:E.
    + apply Qlt_bool_true in E. destruct (IH x) as [r [Hr [Hin [Hle Hall]]]].
      exists r. split; [assumption |]. split; [| split; [lra |]].
      * right. destruct Hin as [-> | Hin]; [now left | now right].
      * intros q [Hq | Hq]; [inversion Hq; subst; assumption | now apply Hall].
    + apply Qlt_bool_false in E. destruct (IH m) as [r [Hr [Hin [Hle Hall]]]].
      exists r. split; [assumption |]. split; [| split; [assumption |]].
      * destruct Hin as [Heq | Hin]; [now left | right; now right].
      * intros q [Hq | Hq]; [inversion Hq; subst; lra | now apply Hall].
Qed.

(** [d3.min] of valid values: [undefined] when there is none, and
    otherwise one of them, below all of them. *)
Lemma d3_min_spec values :
  Forall (fun v => is_valid v = true) values ->
  match values with
  | [] => d3_min values = None
  | _ => exists r, d3_min values = Some (Fin r) /\ In (Some (Fin r)) values /\
                   forall q, In (Some (Fin q)) values -> r <= q
  end.
Proof.
  intros Hvalid. destruct values as [| v rest]; [reflexivity |].
  inversion Hvalid as [| ? ? Hv Hrest]; subst.
  destruct (is_valid_Fin _ Hv) as [x ->].
  unfold d3_min. simpl. unfold xge, xle. rewrite Qle_bool_refl.
  destruct (min_fold Hrest x) as [r [Hr [Hin [Hle Hall]]]].
  exists r. split; [exact Hr |]. split.
  - destruct Hin as [-> | Hin]; [now left | now right].
  - intros q [Hq | Hq]; [inversion Hq; subst; assumption | now apply Hall].
Qed.

Lemma d3_max_spec values :
  Forall (fun v => is_valid v = true) values ->
  match values with
  | [] => d3_max values = None
  | _ => exists r, d3_max values = Some (Fin r) /\ In (Some (Fin r)) values /\
                   forall q, In (Some (Fin q)) values -> q <= r
  end.
Proof.
  intros Hvalid. destruct values as [| v rest]; [reflexivity |].
  inversion Hvalid as [| ? ? Hv Hrest]; subst.
  destruct (is_valid_Fin _ Hv) as [x ->].
  unfold d3_max. simpl. unfold xge, xle. rewrite Qle_bool_refl.
  destruct (max_fold Hrest x) as [r [Hr [Hin [Hle Hall]]]].
  exists r. split; [exact Hr |]. split.
  - destruct Hin as [-> | Hin]; [now left | now right].
  - intros q [Hq | Hq]; [inversion Hq; subst; assumption | now apply Hall].
Qed.

Lemma filter_valid (values : list (jsval xnum)) :
  Forall (fun v => is_valid v = true) (filter is_valid values).
Proof. apply Forall_forall. intros v Hv. now apply filter_In in Hv. Qed.

(** The thresholds of every variable increase strictly and lie between
    the minimum and the maximum, bounds included; without a valid value
    there is no threshold. *)
Lemma computeStats_thresholds_ascending (modisData : list (row xnum)) (cfg : var_config) :
  let stats := computeStats modisData cfg in
  StronglySorted Qlt (thresholds stats) /\
  match min stats, max stats with
  | Some (Fin lo), Some (Fin hi) =>
      lo <= hi /\ Forall (fun t => lo <= t <= hi) (thresholds stats)
  | None, None => thresholds stats = []
  | _, _ => False
  end.
Proof.
  unfold computeStats. cbn [thresholds min max].
  pose proof (filter_valid (map (fun d => get_field (cfg_field cfg) d) modisData)) as Hvalid.
  pose proof (d3_min_spec Hvalid) as Hmin. pose proof (d3_max_spec Hvalid) as Hmax.
  destruct (filter is_valid (map (fun d => get_field (cfg_field cfg) d) modisData))
    as [| v rest].
  - rewrite Hmin, Hmax. simpl. split; [constructor | reflexivity].
  - destruct Hmin as [lo [-> [Hlo Hbelow]]]. destruct Hmax as [hi [-> [Hhi Habove]]].
    simpl to_number.
    assert (lo <= hi) as Hle.
    { apply Qle_trans with lo; [apply Qle_refl | now apply Habove]. }
    destruct (Qlt_le_dec lo hi) as [Hlt | Hge].
    + destruct (d3_ticks_ascending 5 Hlt) as [Hsorted Hwithin]. now repeat split.
    + assert (Qeq_bool lo hi = true) as Heq by (apply Qeq_bool_iff; lra).
      unfold d3_ticks. simpl negb. cbv iota. rewrite Heq.
      split; [repeat constructor |]. split; [assumption |].
      constructor; [lra | constructor].
Qed.
End Extrema.

(* ================================================================= *)
(** * Facts about the statistics engine *)

Lemma computeVarStats_entry (modisData : list (row xnum)) (key : var_key) :
  Map_find var_key_eqb (computeVarStats modisData) key
  = Some (computeStats modisData (VAR_CONFIG key)).
Proof. destruct key; reflexivity. Qed.

Lemma colors_six (modisData : list (row xnum)) (key : var_key) :
  List.length (colors (computeStats modisData (VAR_CONFIG key))) = 6%nat.
Proof. destruct key; reflexivity. Qed.

Lemma filter_none {T : Type} (f : T -> bool) l :
  (forall x, In x l -> f x = false) -> filter f l = [].
Proof.
  induction l as [| x rest IH]; intros Hall; simpl; [reflexivity |].
  rewrite (Hall x (or_introl eq_refl)). apply IH. intros y Hy. apply Hall. now right.
Qed.

(** A state without a usable value is drawn in the background colour,
    whether it has no entry or an entry without a value. *)
Lemma updateMap_fill_background (modisData : list (row xnum)) var y m name :
  Map_get String.eqb (valuesByState modisData var y m) name = None ->
  updateMap_fill modisData (computeVarStats modisData) var y m name
  = Some (Hex "#020617").
Proof.
  intros Hget. unfold updateMap_fill. rewrite computeVarStats_entry, Hget. reflexivity.
Qed.

(** With four thresholds the sixth bin of the legend has no upper stop. *)
Lemma legend_store_stats :
  legend_labels_defined (computeStats store_stats (VAR_CONFIG ndvi)) = false /\
  option_map bin_to (nth_error (legend_bins (computeStats store_stats (VAR_CONFIG ndvi))) 5)
  = Some None.
Proof. split; reflexivity. Qed.

(* ================================================================= *)
(** * The bins of the classifier *)

Section Bins.
Local Open Scope Q_scope.

Lemma sorted_nth_error (a : list Q) : StronglySorted Qlt a -> forall i j s t,
  (i < j)%nat -> nth_error a i = Some s -> nth_error a j = Some t -> s < t.
Proof.
  induction 1 as [| x rest Hsorted IH Hall]; intros i j s t Hij Hi Hj.
  - destruct i; discriminate.
  - destruct j as [| j]; [lia |]. simpl in Hj. destruct i as [| i]; simpl in Hi.
    + inversion Hi; subst. rewrite Forall_forall in Hall. apply Hall.
      now apply nth_error_In with j.
    + apply (@IH i j s t); [lia | assumption | assumption].
Qed.

Lemma sorted_nth_error_le (a : list Q) i j s t :
  StronglySorted Qlt a -> (i <= j)%nat ->
  nth_error a i = Some s -> nth_error a j = Some t -> s <= t.
Proof.
  intros Hsorted Hij Hi Hj. destruct (Nat.eq_dec i j) as [-> | Hne].
  - rewrite Hi in Hj. inversion Hj. apply Qle_refl.
  - apply Qlt_le_weak.
    apply (@sorted_nth_error a Hsorted i j s t); [lia | assumption | assumption].
Qed.

(** On an array that increases, the loop returns the number of elements
    below [hi0] that are at most [q]: the elements before the result are
    at most [q], those from the result on are above [q]. *)
Lemma bisect_loop_spec (a : list Q) q hi0 :
  StronglySorted Qlt a -> (hi0 <= List.length a)%nat ->
  forall fuel lo hi,
    (lo < hi)%nat -> (hi <= hi0)%nat -> (hi - lo <= fuel)%nat ->
    (forall i t, (i < lo)%nat -> nth_error a i = Some t -> t <= q) ->
    (forall i t, (hi <= i)%nat -> (i < hi0)%nat -> nth_error a i = Some t -> q < t) ->
    let r := bisect_loop fuel a (Fin q) lo hi in
    (r <= hi0)%nat /\
    (forall i t, (i < r)%nat -> nth_error a i = Some t -> t <= q) /\
    (forall i t, (r <= i)%nat -> (i < hi0)%nat -> nth_error a i = Some t -> q < t).
Proof.
  intros Hsorted Hlen. induction fuel as [| fuel IH]; intros lo hi Hlt Hhi Hfuel Hbelow Habove;
    [lia |].
  simpl. pose proof (div2_between Hlt) as Hmid. rewrite bisect_test_spec.
  destruct (nth_error a (Nat.div2 (lo + hi))) as [m |] eqn:Em.
  2:{ apply nth_error_None in Em. lia. }
  destruct (Qle_bool m q) eqn:E.
  - apply Qle_bool_iff in E.
    assert (forall i t, (i < S (Nat.div2 (lo + hi)))%nat -> nth_error a i = Some t -> t <= q)
      as Hbelow'.
    { intros i t Hi Ht. apply Qle_trans with m; [| assumption].
      apply (@sorted_nth_error_le a i (Nat.div2 (lo + hi)) t m);
        [assumption | lia | assumption | assumption]. }
    destruct (S (Nat.div2 (lo + hi)) <? hi)%nat eqn:F.
    + apply Nat.ltb_lt in F.
      apply IH; [assumption | assumption | lia | assumption | assumption].
    + apply Nat.ltb_ge in F. split; [lia |]. split; [assumption |].
      intros i t Hi Hi0 Ht. apply (Habove i); [lia | assumption | assumption].
  - assert (q < m) as Hqm.
    { apply Qnot_le_lt. rewrite <- Qle_bool_iff. congruence. }
    assert (forall i t, (Nat.div2 (lo + hi) <= i)%nat -> (i < hi0)%nat ->
                        nth_error a i = Some t -> q < t) as Habove'.
    { intros i t Hi Hi0 Ht. apply Qlt_le_trans with m; [assumption |].
      apply (@sorted_nth_error_le a (Nat.div2 (lo + hi)) i m t);
        [assumption | lia | assumption | assumption]. }
    destruct (lo <? Nat.div2 (lo + hi))%nat eqn:F.
    + apply Nat.ltb_lt in F. apply IH; [assumption | lia | lia | assumption | assumption].
    + apply Nat.ltb_ge in F. split; [lia |]. split; [assumption |].
      intros i t Hi Hi0 Ht. apply (Habove' i); [lia | assumption | assumption].
Qed.

Lemma scale_index_spec (s : ThresholdScale) q :
  StronglySorted Qlt (domain s) -> (n s <= List.length (domain s))%nat ->
  let r := scale_index s (Fin q) in
  (r <= n s)%nat /\
  (forall i t, (i < r)%nat -> nth_error (domain s) i = Some t -> t <= q) /\
  (forall i t, (r <= i)%nat -> (i < n s)%nat -> nth_error (domain s) i = Some t -> q < t).
Proof.
  intros Hsorted Hlen. unfold scale_index. rewrite bisectRight_finite.
  destruct (0 <? n s)%nat eqn:E.
  - apply Nat.ltb_lt in E.
    apply (@bisect_loop_spec (domain s) q (n s) Hsorted Hlen); try lia.
  - apply Nat.ltb_ge in E. split; [lia |]. split; intros i t Hi; lia.
Qed.

(** What the classifier built by [computeVarStats] does: the colour of a
    number [v] is [colors[r]] for the bin [r] such that the thresholds
    before index [r] are at most [v] and those from index [r] on, among
    the first five, are above [v]; a number equal to a threshold is in
    the bin above it. *)
Lemma classifier_bins (modisData : list (row xnum)) (key : var_key) (v : Q) :
  let stats := computeStats modisData (VAR_CONFIG key) in
  let r := scale_index (scale stats) (Fin v) in
  (r <= 5)%nat /\
  scale_apply (scale stats) (Some (Fin v)) = nth_error (colors stats) r /\
  (forall i t, (i < r)%nat -> nth_error (thresholds stats) i = Some t -> t <= v) /\
  (forall i t, (r <= i)%nat -> (i < 5)%nat -> nth_error (thresholds stats) i = Some t -> v < t).
Proof.
  intros stats r.
  pose proof (computeStats_thresholds_ascending modisData (VAR_CONFIG key)) as [Hsorted _].
  pose proof (colors_six modisData key) as Hsix.
  fold stats in Hsorted, Hsix.
  assert (n (scale stats) = Nat.min (List.length (thresholds stats)) 5) as Hn.
  { unfold stats, computeStats in *. cbn [scale n scaleThreshold thresholds colors] in *.
    now rewrite Hsix. }
  assert (domain (scale stats) = thresholds stats) as Hdomain by reflexivity.
  destruct (@scale_index_spec (scale stats) v) as [Hr [Hbelow Habove]].
  - now rewrite Hdomain.
  - rewrite Hdomain, Hn. lia.
  - fold r in Hr, Hbelow, Habove. rewrite Hdomain in Hbelow, Habove.
    split; [lia |]. split; [| split].
    + unfold scale_apply, xle. now rewrite Qle_bool_refl.
    + assumption.
    + intros i t Hi Hi5 Ht. apply (Habove i); [assumption | | assumption].
      rewrite Hn.
      assert (i < List.length (thresholds stats))%nat by (apply nth_error_Some; congruence).
      lia.
Qed.
End Bins.

(* ================================================================= *)
(** * The claims *)

(** ** The statistics engine *)

(** C1 at the readings 0.1, 0.5, 0.9: the extrema are 0.1 and 0.9 and
    [d3.ticks(0.1, 0.9, 5)] has the four values 0.2, 0.4, 0.6, 0.8, not
    five.  At the readings 0 and 1, [d3.ticks(0, 1, 5)] has the six values
    0, 0.2, ..., 1, the first of which is the minimum and the last the
    maximum. *)
Theorem computeStats_thresholds_not_five :
  let stats := computeStats store_stats (VAR_CONFIG ndvi) in
  let stats' := computeStats store_unit (VAR_CONFIG ndvi) in
  (min stats = Some (Fin 0.1) /\ max stats = Some (Fin 0.9) /\
   map Qred (thresholds stats) = [1 # 5; 2 # 5; 3 # 5; 4 # 5]%Q /\
   List.length (thresholds stats) = 4%nat /\ List.length (colors stats) = 6%nat) /\
  (min stats' = Some (Fin 0) /\ max stats' = Some (Fin 1) /\
   map Qred (thresholds stats') = [0; 1 # 5; 2 # 5; 3 # 5; 4 # 5; 1]%Q /\
   List.length (thresholds stats') = 6%nat).
Proof. vm_compute. repeat split. Qed.

(** C2 at the readings 0.5, 1, 5.5 of evapotranspiration: the thresholds
    are 1, 2, 3, 4, 5, there are six colours, and each threshold is
    classified into the bin above it: the reading 1, equal to
    [thresholds[0]], gets [colors[1]], which is not [colors[0]]. *)
Theorem classifier_boundary_in_upper_bin :
  let stats := computeStats store_bins (VAR_CONFIG et) in
  map Qred (thresholds stats) = [1; 2; 3; 4; 5]%Q /\
  List.length (colors stats) = 6%nat /\
  map (fun t => scale_index (scale stats) (Fin t)) (thresholds stats)
    = [1; 2; 3; 4; 5]%nat /\
  scale_apply (scale stats) (Some (Fin 1)) = nth_error (colors stats) 1 /\
  nth_error (colors stats) 1 <> nth_error (colors stats) 0.
Proof.
  vm_compute. repeat split. discriminate.
Qed.




(** C9: the classifier built by [computeVarStats] is monotonic: of two
    numbers, the smaller one does not fall into a higher bin; the colour
    of a number is the entry of [colors] at its bin. *)
Theorem classifier_monotonic :
  forall (modisData : list (row xnum)) (cfg : var_config) (a b : Q),
    (a <= b)%Q ->
    let stats := computeStats modisData cfg in
    (scale_index (scale stats) (Fin a) <= scale_index (scale stats) (Fin b))%nat /\
    scale_apply (scale stats) (Some (Fin a)) =
      nth_error (colors stats) (scale_index (scale stats) (Fin a)) /\
    scale_apply (scale stats) (Some (Fin b)) =
      nth_error (colors stats) (scale_index (scale stats) (Fin b)).
Proof.
  intros modisData cfg a b Hab stats. split; [now apply scale_index_mono |].
  unfold scale_apply. simpl. now rewrite !Qle_bool_refl.
Qed.

Lemma classifier_monotonic_witness :
  (0.3 <= 0.7)%Q /\
  (scale_index (scale (computeStats store_stats (VAR_CONFIG ndvi))) (Fin 0.3) <=
   scale_index (scale (computeStats store_stats (VAR_CONFIG ndvi))) (Fin 0.7))%nat.
Proof.
  assert (0.3 <= 0.7)%Q as Hle by (unfold Qle; simpl; lia).
  split; [exact Hle |].
  exact (proj1 (classifier_monotonic store_stats (VAR_CONFIG ndvi) Hle)).
Defined.

(** ** The aggregator *)






(** C6: every point of the series carries a number, and a date at which
    no record that passes the state filter has a valid value of the field
    is the date of no point. *)
Theorem buildSeriesForState_drops_missing_groups :
  forall (num : Type) (HN : Number num) (modisData : list (row num))
         (currentVar : var_key) (stateName : option string),
    Forall (fun p => is_valid (value p) = true)
           (buildSeriesForState modisData currentVar stateName) /\
    forall t,
      (forall d, In d modisData -> state_filter stateName d = true -> date d = t ->
                 is_valid (get_field (cfg_field (VAR_CONFIG currentVar)) d) = false) ->
      ~ In t (map (@point_date num) (buildSeriesForState modisData currentVar stateName)).
Proof.
  intros num HN modisData var stateName. split.
  - apply Forall_forall. intros p Hp. now apply buildSeriesForState_In in Hp.
  - intros t Hmissing Hin. apply in_map_iff in Hin as [p [Ht Hp]].
    apply buildSeriesForState_In in Hp as [Hp Hvalid].
    rewrite (byDate_In _ _ _ _ Hp), d3_mean_undefined in Hvalid; [discriminate |].
    intros d Hd. unfold members in Hd. apply filter_In in Hd as [Hd Hdt].
    apply filter_In in Hd as [Hd Hds]. apply Z.eqb_eq in Hdt.
    apply Hmissing; congruence.
Qed.

Lemma buildSeriesForState_drops_missing_witness :
  (forall d, In d store_gap -> state_filter None d = true -> date d = feb2020 ->
             is_valid (get_field (cfg_field (VAR_CONFIG ndvi)) d) = false) /\
  ~ In feb2020 (map (@point_date xnum) (buildSeriesForState store_gap ndvi None)).
Proof.
  assert (forall d, In d store_gap -> state_filter None d = true -> date d = feb2020 ->
                    is_valid (get_field (cfg_field (VAR_CONFIG ndvi)) d) = false) as Hfeb.
  { intros d [<- | [<- | [<- | [<- | [<- | []]]]]] _ Hdate;
      solve [reflexivity | discriminate Hdate]. }
  split; [exact Hfeb |].
  exact (proj2 (@buildSeriesForState_drops_missing_groups xnum _ store_gap ndvi None)
               feb2020 Hfeb).
Defined.

(** C7: the series is sorted by ascending date and no two of its points
    have the same date; that is, the dates increase strictly. *)
Theorem buildSeriesForState_sorted_by_date :
  forall (num : Type) (HN : Number num) (modisData : list (row num))
         (currentVar : var_key) (stateName : option string),
    StronglySorted (fun a b => point_date a <= point_date b)
                   (buildSeriesForState modisData currentVar stateName) /\
    NoDup (map (@point_date num) (buildSeriesForState modisData currentVar stateName)) /\
    StronglySorted (fun a b => point_date a < point_date b)
                   (buildSeriesForState modisData currentVar stateName).
Proof.
  intros num HN modisData var stateName.
  assert (StronglySorted (fun a b => point_date a <= point_date b)
                         (buildSeriesForState modisData var stateName)) as Hsorted.
  { rewrite buildSeriesForState_unfold. apply Array_sort_sorted. }
  assert (NoDup (map (@point_date num) (buildSeriesForState modisData var stateName)))
    as Hnodup.
  { rewrite buildSeriesForState_unfold.
    eapply Permutation_NoDup.
    - apply Permutation_map. apply Array_sort_Permutation.
    - apply NoDup_map_filter. apply byDate_dates. }
  repeat split; [assumption | assumption |].
  now apply sorted_NoDup_strict.
Qed.

(** C8, as stated, fails in the arithmetic of JavaScript: the mean of
    0.2 and 0.4 is not the number 0.3. *)
Lemma valuesByState_end_to_end_not_exact :
  option_map (fun x => PrimFloat.eqb x 0.3%float)
             (Map_get String.eqb (valuesByState store_end_to_end ndvi 2020 1) "CA")
  = Some false.
Proof. vm_compute. reflexivity. Qed.

(** C8, amended: for the three records, [valuesByState] for NDVI in
    January 2020 has exactly the entries CA and NY; in binary64 they are
    0.30000000000000004 (the sum 0.2 + 0.4 rounds to 0.6000000000000001)
    and 0.9; in exact arithmetic they are 3/10 and 9/10. *)
Theorem valuesByState_end_to_end :
  valuesByState store_end_to_end ndvi 2020 1 =
    [("CA", Some 0.30000000000000004%float); ("NY", Some 0.9%float)] /\
  map fst (valuesByState store_end_to_end_exact ndvi 2020 1) = ["CA"; "NY"] /\
  jsval_eq (Map_get String.eqb (valuesByState store_end_to_end_exact ndvi 2020 1) "CA")
           (Some (Fin 0.3)) /\
  jsval_eq (Map_get String.eqb (valuesByState store_end_to_end_exact ndvi 2020 1) "NY")
           (Some (Fin 0.9)).
Proof.
  split; [vm_compute; reflexivity |].
  split; [reflexivity |]. split; reflexivity.
Qed.




(* ================================================================= *)
(** * Further facts about means and extrema *)

Section MoreExact.
Local Open Scope Q_scope.

Lemma valid_values_In {A : Type} (valueof : A -> jsval xnum) values q :
  In (Fin q) (valid_values valueof values) <->
  exists a, In a values /\ valueof a = Some (Fin q).
Proof.
  induction values as [| a rest IH]; simpl.
  - split; [intros [] | intros [a [[] _]]].
  - destruct (valueof a) as [[| x] |] eqn:E; simpl.
    + rewrite IH. split; intros [b [Hb Hq]].
      * exists b. split; [now right | assumption].
      * destruct Hb as [-> | Hb]; [congruence | exists b; now split].
    + split.
      * intros [Hq | Hin].
        -- inversion Hq; subst. exists a. split; [now left | assumption].
        -- apply IH in Hin as [b [Hb Hq]]. exists b. split; [now right | assumption].
      * intros [b [[-> | Hb] Hq]].
        -- left. congruence.
        -- right. apply IH. exists b. now split.
    + rewrite IH. split; intros [b [Hb Hq]].
      * exists b. split; [now right | assumption].
      * destruct Hb as [-> | Hb]; [congruence | exists b; now split].
Qed.




(** The extrema of a variable are readings of records, and every valid
    reading lies between them. *)
Lemma computeStats_extrema (modisData : list (row xnum)) (cfg : var_config) :
  let stats := computeStats modisData cfg in
  match min stats, max stats with
  | Some (Fin lo), Some (Fin hi) =>
      (exists d, In d modisData /\ get_field (cfg_field cfg) d = Some (Fin lo)) /\
      (exists d, In d modisData /\ get_field (cfg_field cfg) d = Some (Fin hi)) /\
      forall d q, In d modisData -> get_field (cfg_field cfg) d = Some (Fin q) ->
                  lo <= q <= hi
  | None, None =>
      forall d, In d modisData -> is_valid (get_field (cfg_field cfg) d) = false
  | _, _ => False
  end.
Proof.
  unfold computeStats. cbn [min max].
  set (vals := filter is_valid (map (fun d => get_field (cfg_field cfg) d) modisData)).
  assert (forall q, In (Some (Fin q)) vals <->
                    exists d, In d modisData /\ get_field (cfg_field cfg) d = Some (Fin q))
    as Hvals.
  { intros q. unfold vals. rewrite filter_In, in_map_iff. split.
    - intros [[d [E Hd]] _]. exists d. now split.
    - intros [d [Hd E]]. split; [exists d; now split | reflexivity]. }
  pose proof (filter_valid (map (fun d => get_field (cfg_field cfg) d) modisData)) as Hvalid.
  fold vals in Hvalid.
  pose proof (d3_min_spec Hvalid) as Hmin. pose proof (d3_max_spec Hvalid) as Hmax.
  destruct vals as [| v rest] eqn:E.
  - rewrite Hmin, Hmax. intros d Hd.
    destruct (is_valid (get_field (cfg_field cfg) d)) eqn:F; [| reflexivity].
    exfalso. destruct (is_valid_Fin _ F) as [q Hq].
    assert (In (Some (Fin q)) []) as Hin by (apply Hvals; exists d; now split).
    destruct Hin.
  - destruct Hmin as [lo [-> [Hlo Hbelow]]]. destruct Hmax as [hi [-> [Hhi Habove]]].
    split; [now apply Hvals |]. split; [now apply Hvals |].
    intros d q Hd Hq.
    assert (In (Some (Fin q)) (v :: rest)) as Hin by (apply Hvals; exists d; now split).
    split; [now apply Hbelow | now apply Habove].
Qed.

(** In exact arithmetic a mean that exists is a rational. *)
Lemma d3_mean_valid {A : Type} (values : list A) (valueof : A -> jsval xnum) :
  is_valid (d3_mean values valueof) = true <-> valid_values valueof values <> [].
Proof.
  pose proof (d3_mean_exact values valueof) as Hmean.
  destruct (d3_mean values valueof) as [[| m] |]; simpl.
  - destruct Hmean.
  - destruct Hmean as [Hne _]. split; [intros _; assumption | reflexivity].
  - rewrite Hmean. split; [discriminate | intros Hne; now contradiction Hne].
Qed.

Lemma valid_values_nonempty {A : Type} (valueof : A -> jsval xnum) values :
  valid_values valueof values <> [] <->
  exists a, In a values /\ is_valid (valueof a) = true.
Proof.
  split.
  - intros Hne. destruct (valid_values valueof values) as [| x rest] eqn:E; [contradiction |].
    pose proof (valid_values_finite valueof values) as Hfin. rewrite E in Hfin.
    inversion Hfin as [| ? ? Hx _]; subst. destruct x as [| q]; [discriminate |].
    assert (In (Fin q) (valid_values valueof values)) as Hin by (rewrite E; now left).
    apply valid_values_In in Hin as [a [Ha Hq]]. exists a. split; [assumption |].
    now rewrite Hq.
  - intros [a [Ha Hv]] E. destruct (is_valid_Fin _ Hv) as [q Hq].
    assert (In (Fin q) (valid_values valueof values)) as Hin
      by (apply valid_values_In; exists a; now split).
    rewrite E in Hin. destruct Hin.
Qed.

End MoreExact.

(* ================================================================= *)
(** * Further properties of the statistics engine *)

Section MoreStats.
Local Open Scope Q_scope.

Lemma Forall_firstn_nth {T : Type} (P : T -> Prop) (l : list T) r :
  (forall i t, (i < r)%nat -> nth_error l i = Some t -> P t) -> Forall P (firstn r l).
Proof.
  intros Hall. apply Forall_forall. intros t Ht. apply In_nth_error in Ht as [i Hi].
  rewrite nth_error_firstn in Hi. destruct (i <? r)%nat eqn:E; [| discriminate].
  apply Nat.ltb_lt in E. now apply (Hall i).
Qed.

Lemma Forall_skipn_firstn_nth {T : Type} (P : T -> Prop) (l : list T) r k :
  (forall i t, (r <= i)%nat -> (i < k)%nat -> nth_error l i = Some t -> P t) ->
  Forall P (skipn r (firstn k l)).
Proof.
  intros Hall. apply Forall_forall. intros t Ht. apply In_nth_error in Ht as [i Hi].
  rewrite nth_error_skipn, nth_error_firstn in Hi.
  destruct (r + i <? k)%nat eqn:E; [| discriminate].
  apply Nat.ltb_lt in E. apply (Hall (r + i)%nat); [lia | assumption | assumption].
Qed.

Lemma scale_n (modisData : list (row xnum)) (key : var_key) :
  n (scale (computeStats modisData (VAR_CONFIG key)))
  = Nat.min (List.length (thresholds (computeStats modisData (VAR_CONFIG key)))) 5.
Proof.
  pose proof (colors_six modisData key) as Hsix.
  unfold computeStats in *. cbn [scale n scaleThreshold thresholds colors] in *.
  now rewrite Hsix.
Qed.


(** X2: the bin [r] that the scale of [computeVarStats] gives a number
    [v] is the number of thresholds, among the first five, that are at
    most [v]: the first [r] thresholds are at most [v], the others of the
    first five are above [v], and the colour of [v] is [colors[r]]. *)
Theorem classifier_counts_thresholds :
  forall (modisData : list (row xnum)) (key : var_key) (v : Q),
    let stats := computeStats modisData (VAR_CONFIG key) in
    let r := scale_index (scale stats) (Fin v) in
    (r <= Nat.min (List.length (thresholds stats)) 5)%nat /\
    scale_apply (scale stats) (Some (Fin v)) = nth_error (colors stats) r /\
    Forall (fun t => t <= v) (firstn r (thresholds stats)) /\
    Forall (fun t => v < t) (skipn r (firstn 5 (thresholds stats))).
Proof.
  intros modisData key v stats r.
  pose proof (computeStats_thresholds_ascending modisData (VAR_CONFIG key)) as [Hsorted _].
  pose proof (scale_n modisData key) as Hn. fold stats in Hsorted, Hn.
  assert (domain (scale stats) = thresholds stats) as Hdomain by reflexivity.
  destruct (@scale_index_spec (scale stats) v) as [Hr [Hbelow Habove]].
  - now rewrite Hdomain.
  - rewrite Hdomain, Hn. lia.
  - fold r in Hr, Hbelow, Habove. rewrite Hdomain in Hbelow, Habove. rewrite Hn in Hr, Habove.
    split; [assumption |]. split; [| split].
    + unfold scale_apply, xle. now rewrite Qle_bool_refl.
    + now apply Forall_firstn_nth.
    + apply Forall_skipn_firstn_nth. intros i t Hri Hi Ht. apply (Habove i); [assumption | | assumption].
      assert (i < List.length (thresholds stats))%nat by (apply nth_error_Some; congruence).
      lia.
Qed.


(** X3: the scale of [computeVarStats] gives every number one of the six
    colours of the variable, never [undefined]; it gives [undefined] for
    [null] and for [NaN]. *)
Theorem classifier_total_on_numbers :
  forall (modisData : list (row xnum)) (key : var_key) (v : Q),
    let stats := computeStats modisData (VAR_CONFIG key) in
    (exists c, scale_apply (scale stats) (Some (Fin v)) = Some c /\ In c (colors stats)) /\
    scale_apply (scale stats) None = None /\
    scale_apply (scale stats) (Some XNaN) = None.
Proof.
  intros modisData key v stats.
  destruct (classifier_bins modisData key v) as [Hr [Happly _]].
  fold stats in Hr, Happly. pose proof (colors_six modisData key) as Hsix. fold stats in Hsix.
  split; [| split; reflexivity].
  destruct (nth_error (colors stats) (scale_index (scale stats) (Fin v))) as [c |] eqn:E.
  - exists c. split; [now rewrite Happly | now apply nth_error_In in E].
  - apply nth_error_None in E. lia.
Qed.

(** X4: the minimum and the maximum of a variable are readings of
    records, and every valid reading of the variable lies between them. *)
Theorem extrema_bound_every_reading :
  forall (modisData : list (row xnum)) (cfg : var_config) (d : row xnum) (q : Q),
    In d modisData -> get_field (cfg_field cfg) d = Some (Fin q) ->
    exists lo hi,
      min (computeStats modisData cfg) = Some (Fin lo) /\
      max (computeStats modisData cfg) = Some (Fin hi) /\
      lo <= q <= hi /\
      (exists d1, In d1 modisData /\ get_field (cfg_field cfg) d1 = Some (Fin lo)) /\
      (exists d2, In d2 modisData /\ get_field (cfg_field cfg) d2 = Some (Fin hi)).
Proof.
  intros modisData cfg d q Hd Hq.
  pose proof (computeStats_extrema modisData cfg) as Hext. cbv zeta in Hext.
  destruct (min (computeStats modisData cfg)) as [[| lo] |];
    destruct (max (computeStats modisData cfg)) as [[| hi] |]; try contradiction.
  - destruct Hext as [Hlo [Hhi Hall]]. exists lo, hi.
    split; [reflexivity |]. split; [reflexivity |]. split; [now apply (Hall d) |].
    now split.
  - specialize (Hext d Hd). rewrite Hq in Hext. discriminate.
Qed.

Lemma extrema_bound_every_reading_witness :
  In (reading "Utah" 2020 1 (Some (Fin 0.5)) jan2020) store_stats /\
  exists lo hi,
    min (computeStats store_stats (VAR_CONFIG ndvi)) = Some (Fin lo) /\
    max (computeStats store_stats (VAR_CONFIG ndvi)) = Some (Fin hi) /\
    lo <= 0.5 <= hi /\
    (exists d1, In d1 store_stats /\
                get_field (cfg_field (VAR_CONFIG ndvi)) d1 = Some (Fin lo)) /\
    (exists d2, In d2 store_stats /\
                get_field (cfg_field (VAR_CONFIG ndvi)) d2 = Some (Fin hi)).
Proof.
  assert (In (reading "Utah" 2020 1 (Some (Fin 0.5)) jan2020) store_stats) as Hin.
  { right. left. reflexivity. }
  split; [exact Hin |].
  exact (@extrema_bound_every_reading store_stats (VAR_CONFIG ndvi) _ 0.5 Hin eq_refl).
Defined.
End MoreStats.

(* ================================================================= *)
(** * Further properties of the aggregator *)

Section MoreAggregator.
Local Open Scope Q_scope.


Lemma state_filter_None (d : row xnum) : state_filter None d = true.
Proof. reflexivity. Qed.

(** The dates of the series, in exact arithmetic: those at which a
    record that passes the state filter has a valid reading. *)
Lemma series_date_iff (modisData : list (row xnum)) var stateName t :
  In t (map (@point_date xnum) (buildSeriesForState modisData var stateName)) <->
  exists d, In d modisData /\ state_filter stateName d = true /\ date d = t /\
            is_valid (get_field (cfg_field (VAR_CONFIG var)) d) = true.
Proof.
  split.
  - intros Hin. apply in_map_iff in Hin as [p [Ht Hp]].
    apply buildSeriesForState_In in Hp as [Hp Hvalid].
    rewrite (byDate_In _ _ _ _ Hp) in Hvalid.
    apply d3_mean_valid, valid_values_nonempty in Hvalid as [d [Hd Hv]].
    unfold members in Hd. apply filter_In in Hd as [Hd Hdt].
    apply filter_In in Hd as [Hd Hds]. apply Z.eqb_eq in Hdt.
    exists d. repeat split; try assumption. congruence.
  - intros [d [Hd [Hs [Ht Hv]]]].
    assert (In d (filter (state_filter stateName) modisData)) as Hfiltered
      by (apply filter_In; now split).
    pose proof (d3_rollups_complete Z.eqb Z.eqb_eq (@date xnum)
                  (fun v => d3_mean v (fun d => get_field (cfg_field (VAR_CONFIG var)) d))
                  _ _ Hfiltered) as Hentry.
    set (group := members Z.eqb (@date xnum) (date d)
                    (filter (state_filter stateName) modisData)) in *.
    set (p := mkPoint (date d) (d3_mean group (fun d => get_field (cfg_field (VAR_CONFIG var)) d))).
    assert (In p (byDate modisData var stateName)) as Hp.
    { unfold byDate. apply in_map_iff. eexists. split; [| exact Hentry]. reflexivity. }
    assert (is_valid (value p) = true) as Hvalid.
    { apply d3_mean_valid, valid_values_nonempty. exists d. split; [| assumption].
      unfold group, members. apply filter_In. split; [assumption | apply Z.eqb_refl]. }
    apply in_map_iff. exists p. split; [exact Ht |].
    apply buildSeriesForState_In. now split.
Qed.










(** X10: a state without a record in the selected month has no entry in
    [valuesByState] and is drawn in the background colour. *)
Theorem updateMap_absent_state_background :
  forall (modisData : list (row xnum)) (currentVar : var_key)
         (currentYear currentMonth : Z) (name : string),
    (forall d, In d modisData -> year d = currentYear -> month d = currentMonth ->
               state d <> name) ->
    Map_has String.eqb (valuesByState modisData currentVar currentYear currentMonth) name
      = false /\
    updateMap_fill modisData (computeVarStats modisData) currentVar
                   currentYear currentMonth name = Some (Hex "#020617").
Proof.
  intros modisData var y mth name Hnone.
  pose proof (@valuesByState_absent xnum _ modisData var y mth name Hnone) as Habsent.
  split; [assumption |]. apply updateMap_fill_background.
  unfold Map_has in Habsent. unfold Map_get.
  destruct (Map_find String.eqb (valuesByState modisData var y mth) name);
    [discriminate | reflexivity].
Qed.

Lemma updateMap_absent_state_witness :
  (forall d, In d store_march -> year d = 2020%Z -> month d = 3%Z -> state d <> "Ohio") /\
  Map_has String.eqb (valuesByState store_march ndvi 2020 3) "Ohio" = false /\
  updateMap_fill store_march (computeVarStats store_march) ndvi 2020 3 "Ohio"
    = Some (Hex "#020617").
Proof.
  assert (forall d, In d store_march -> year d = 2020%Z -> month d = 3%Z -> state d <> "Ohio")
    as Hnone.
  { intros d [<- | [<- | []]] _ _; discriminate. }
  split; [exact Hnone |].
  exact (@updateMap_absent_state_background store_march ndvi 2020 3 "Ohio" Hnone).
Defined.
End MoreAggregator.

(* ================================================================= *)
(** * Properties of the legend, the chart and the listeners *)

Section MoreViews.
Local Open Scope Q_scope.

(** When the legend can be labelled, whatever the statistics: the
    minimum must be there, and six thresholds, or five and the maximum. *)
Lemma legend_labels_spec (stats : VariableStats) :
  List.length (colors stats) = 6%nat ->
  legend_labels_defined stats =
  match min stats, thresholds stats with
  | None, _ => false
  | Some _, _ :: _ :: _ :: _ :: _ :: _ :: _ => true
  | Some _, [_; _; _; _; _] => match max stats with Some _ => true | None => false end
  | Some _, _ => false
  end.
Proof.
  destruct stats as [mn mx th cs sc]. cbn [colors min max thresholds]. intros Hsix.
  destruct cs as [| c0 [| c1 [| c2 [| c3 [| c4 [| c5 [| c6 cs]]]]]]]; try discriminate.
  unfold legend_labels_defined, legend_bins, allStops, stop_at.
  cbn [colors min max thresholds List.length seq combine map forallb bin_from bin_to fst snd].
  destruct mn as [mn |];
    destruct th as [| t0 [| t1 [| t2 [| t3 [| t4 [| t5 th]]]]]];
    destruct mx as [mx |]; reflexivity.
Qed.

Lemma legend_labels_iff (modisData : list (row xnum)) (key : var_key) :
  legend_labels_defined (computeStats modisData (VAR_CONFIG key)) = true <->
  (5 <= List.length (thresholds (computeStats modisData (VAR_CONFIG key))))%nat.
Proof.
  set (stats := computeStats modisData (VAR_CONFIG key)).
  pose proof (colors_six modisData key) as Hsix. fold stats in Hsix.
  rewrite (legend_labels_spec stats Hsix).
  destruct (computeStats_thresholds_ascending modisData (VAR_CONFIG key)) as [_ Hbounds].
  fold stats in Hbounds.
  destruct (min stats) as [[| lo] |]; destruct (max stats) as [[| hi] |];
    try contradiction.
  - destruct (thresholds stats) as [| t0 [| t1 [| t2 [| t3 [| t4 [| t5 th]]]]]];
      cbn [List.length]; split; intros H; try discriminate; try lia; reflexivity.
  - rewrite Hbounds. cbn [List.length]. split; intros H; [discriminate | lia].
Qed.

(** X11: the legend of [drawMapLegend] has six bins; the stops of all of
    them are defined, so that their labels can be written, exactly when
    the variable has five thresholds at least. *)
Theorem legend_needs_five_thresholds :
  forall (modisData : list (row xnum)) (key : var_key),
    let stats := computeStats modisData (VAR_CONFIG key) in
    List.length (legend_bins stats) = 6%nat /\
    (legend_labels_defined stats = true <-> (5 <= List.length (thresholds stats))%nat).
Proof.
  intros modisData key stats.
  pose proof (colors_six modisData key) as Hsix. fold stats in Hsix. split.
  - unfold legend_bins. rewrite length_map, length_combine, length_seq, Hsix. reflexivity.
  - apply legend_labels_iff.
Qed.

Lemma extent_fold {A : Type} (valueof : A -> jsval xnum) (values : list A) :
  forall mn mx, (mn = None <-> mx = None) ->
    fold_left (fun acc a => extent_step acc (valueof a)) values (mn, mx) =
    (fold_left min_step (map valueof values) mn, fold_left max_step (map valueof values) mx).
Proof.
  induction values as [| a rest IH]; intros mn mx Hinv; [reflexivity |].
  cbn [fold_left map]. unfold extent_step at 2. cbn [fst snd].
  destruct (valueof a) as [x |]; [| now apply IH].
  destruct mn as [m |].
  - destruct mx as [m' |]; [| exfalso; destruct Hinv as [_ H]; discriminate (H eq_refl)].
    cbn [min_step max_step]. apply IH. destruct (xgt m x), (xlt m' x); split; discriminate.
  - destruct mx as [m' |]; [exfalso; destruct Hinv as [H _]; discriminate (H eq_refl) |].
    cbn [min_step max_step]. destruct (xge x x); apply IH; split; congruence.
Qed.

(** [d3.extent] is [d3.min] and [d3.max] together. *)
Lemma d3_extent_min_max {A : Type} (values : list A) (valueof : A -> jsval xnum) :
  d3_extent values valueof = (d3_min (map valueof values), d3_max (map valueof values)).
Proof. unfold d3_extent, d3_min, d3_max. apply extent_fold. split; reflexivity. Qed.

Lemma series_values_valid (modisData : list (row xnum)) var stateName :
  Forall (fun v => is_valid v = true)
         (map (fun d => value d) (buildSeriesForState modisData var stateName)).
Proof.
  apply Forall_forall. intros v Hv. apply in_map_iff in Hv as [p [<- Hp]].
  now apply buildSeriesForState_In in Hp.
Qed.

(** X12: the domain that [updateSeasonalChart] hands to the scale of the
    ordinates, for a series that is not empty, is a pair of numbers: the
    values of two points of the series, the first at most and the second
    at least the value of every point. *)
Theorem chart_domain_spans_series :
  forall (modisData : list (row xnum)) (currentVar : var_key) (stateName : option string),
    let series := buildSeriesForState modisData currentVar stateName in
    series <> [] ->
    exists lo hi,
      d3_extent series (fun d => value d) = (Some (Fin lo), Some (Fin hi)) /\
      (exists p, In p series /\ value p = Some (Fin lo)) /\
      (exists p, In p series /\ value p = Some (Fin hi)) /\
      Forall (fun p => exists m, value p = Some (Fin m) /\ lo <= m <= hi) series.
Proof.
  intros modisData var stateName series Hne.
  rewrite d3_extent_min_max.
  pose proof (series_values_valid modisData var stateName) as Hvalid. fold series in Hvalid.
  pose proof (d3_min_spec Hvalid) as Hmin. pose proof (d3_max_spec Hvalid) as Hmax.
  destruct series as [| p0 rest] eqn:E; [contradiction |].
  cbn [map] in Hmin, Hmax.
  destruct Hmin as [lo [Hlo [Hlo_in Hbelow]]]. destruct Hmax as [hi [Hhi [Hhi_in Habove]]].
  exists lo, hi. cbn [map]. rewrite Hlo, Hhi. split; [reflexivity |].
  change (value p0 :: map (fun d : SeriesPoint xnum => value d) rest)
    with (map (fun d : SeriesPoint xnum => value d) (p0 :: rest)) in Hlo_in, Hhi_in.
  apply in_map_iff in Hlo_in as [pl [Hpl Hpl_in]].
  apply in_map_iff in Hhi_in as [ph [Hph Hph_in]].
  split; [exists pl; now split |]. split; [exists ph; now split |].
  apply Forall_forall. intros p Hp.
  assert (is_valid (value p) = true) as Hv.
  { rewrite Forall_forall in Hvalid. apply Hvalid. now apply in_map. }
  destruct (is_valid_Fin _ Hv) as [m Hm]. exists m. split; [assumption |].
  assert (In (Some (Fin m)) (map (fun d => value d) (p0 :: rest))) as Hin
    by (rewrite <- Hm; now apply in_map).
  split; [now apply Hbelow | now apply Habove].
Qed.

Lemma chart_domain_spans_series_witness :
  buildSeriesForState store_gap ndvi None <> [] /\
  exists lo hi,
    d3_extent (buildSeriesForState store_gap ndvi None) (fun d => value d)
    = (Some (Fin lo), Some (Fin hi)) /\
    (exists p, In p (buildSeriesForState store_gap ndvi None) /\ value p = Some (Fin lo)) /\
    (exists p, In p (buildSeriesForState store_gap ndvi None) /\ value p = Some (Fin hi)) /\
    Forall (fun p => exists m, value p = Some (Fin m) /\ lo <= m <= hi)
           (buildSeriesForState store_gap ndvi None).
Proof.
  assert (buildSeriesForState store_gap ndvi None <> []) as Hne by (vm_compute; discriminate).
  split; [exact Hne |].
  exact (@chart_domain_spans_series store_gap ndvi None Hne).
Defined.

(** The series is empty exactly when no record that passes the filter
    has a valid reading. *)
Lemma series_empty_iff (modisData : list (row xnum)) var stateName :
  buildSeriesForState modisData var stateName = [] <->
  forall d, In d modisData -> state_filter stateName d = true ->
            is_valid (get_field (cfg_field (VAR_CONFIG var)) d) = false.
Proof.
  split.
  - intros Hempty d Hd Hs.
    destruct (is_valid (get_field (cfg_field (VAR_CONFIG var)) d)) eqn:Hv; [| reflexivity].
    exfalso.
    assert (In (date d) (map (@point_date xnum) (buildSeriesForState modisData var stateName)))
      as Hin by (apply series_date_iff; exists d; now repeat split).
    rewrite Hempty in Hin. destruct Hin.
  - intros Hall.
    destruct (buildSeriesForState modisData var stateName) as [| p rest] eqn:E;
      [reflexivity |].
    exfalso.
    assert (In (point_date p)
               (map (@point_date xnum) (buildSeriesForState modisData var stateName)))
      as Hin by (rewrite E; now left).
    apply series_date_iff in Hin as [d [Hd [Hs [_ Hv]]]].
    rewrite (Hall d Hd Hs) in Hv. discriminate.
Qed.
End MoreViews.

Section MoreListeners.



(** X14: a click on a state, named by a string that is not empty,
    without a valid reading of the current variable ends normally: the
    title names that state and its outline is highlighted, but the line
    of the chart and its domain stay those of the previous selection. *)
Theorem click_without_data_keeps_line :
  forall (modisData : list (row xnum)) (app : App) (name : string),
    name <> "" ->
    (forall d, In d modisData -> state d = name ->
               is_valid (get_field (cfg_field (VAR_CONFIG (currentVar app))) d) = false) ->
    exists app',
      on_state_click modisData name app = Done app' /\
      selectedState app' = Some name /\
      stateTitle (view app') = (name ++ ": Seasonal Pattern")%string /\
      highlighted (view app') = Some name /\
      line_datum (view app') = line_datum (view app) /\
      yDomain (view app') = yDomain (view app).
Proof.
  intros modisData app name Hname Hmissing.
  assert (buildSeriesForState modisData (currentVar app) (Some name) = []) as Hempty.
  { apply series_empty_iff. intros d Hd Hs. apply Hmissing; [assumption |].
    rewrite state_filter_name in Hs by assumption. now apply String.eqb_eq. }
  unfold on_state_click, updateSeasonalChart. cbn [currentVar selectedState].
  rewrite Hempty. cbn [and_then]. eexists. split; [reflexivity |].
  cbn [selectedState updateStateTitle with_view view stateTitle highlighted line_datum yDomain].
  unfold stateTitle_text, truthy.
  destruct (String.eqb name "") eqn:E; [apply String.eqb_eq in E; contradiction |].
  repeat split.
Qed.

Lemma click_without_data_keeps_line_witness :
  "Ohio" <> "" /\
  exists app',
    on_state_click store_gap "Ohio" app_utah = Done app' /\
    selectedState app' = Some "Ohio" /\
    stateTitle (view app') = ("Ohio" ++ ": Seasonal Pattern")%string /\
    highlighted (view app') = Some "Ohio" /\
    line_datum (view app') = line_datum (view app_utah) /\
    yDomain (view app') = yDomain (view app_utah).
Proof.
  assert ("Ohio" <> "") as Hname by discriminate.
  split; [exact Hname |].
  apply (@click_without_data_keeps_line store_gap app_utah "Ohio" Hname).
  intros d [<- | [<- | [<- | [<- | [<- | []]]]]] Hs; discriminate Hs.
Defined.



(** X16: choosing a variable with fewer than five thresholds repaints
    the map for that variable and then throws in [drawMapLegend]:
    [updateSeasonalChart] is not reached, and the chart keeps the line and
    the title of the variable chosen before. *)
Theorem varSelect_throws_below_five_thresholds :
  forall (modisData : list (row xnum)) (statesGeo : list string) (key : var_key) (app : App),
    (List.length (thresholds (computeStats modisData (VAR_CONFIG key))) < 5)%nat ->
    exists app',
      on_varSelect_change modisData (computeVarStats modisData) statesGeo key app
        = Thrown app' /\
      currentVar app' = key /\
      fills (view app') =
        map (fun name => (name, updateMap_fill modisData (computeVarStats modisData) key
                                  (currentYear app) (currentMonth app) name)) statesGeo /\
      line_datum (view app') = line_datum (view app) /\
      yDomain (view app') = yDomain (view app) /\
      stateTitle (view app') = stateTitle (view app).
Proof.
  intros modisData statesGeo key app Hfew.
  pose proof (legend_labels_iff modisData key) as Hlegend.
  assert (legend_labels_defined (computeStats modisData (VAR_CONFIG key)) = false) as Hthrow.
  { destruct (legend_labels_defined (computeStats modisData (VAR_CONFIG key)));
      [| reflexivity].
    pose proof (proj1 Hlegend eq_refl). lia. }
  unfold on_varSelect_change, updateMap. cbn [currentVar].
  rewrite computeVarStats_entry, Hthrow. cbn [and_then].
  eexists. split; [reflexivity |]. repeat split.
Qed.

Lemma varSelect_throws_below_five_thresholds_witness :
  (List.length (thresholds (computeStats store_gap (VAR_CONFIG et))) < 5)%nat /\
  exists app',
    on_varSelect_change store_gap (computeVarStats store_gap) ["Utah"; "Nevada"] et app_utah
      = Thrown app' /\
    currentVar app' = et /\
    fills (view app') =
      map (fun name => (name, updateMap_fill store_gap (computeVarStats store_gap) et
                                (currentYear app_utah) (currentMonth app_utah) name))
          ["Utah"; "Nevada"] /\
    line_datum (view app') = line_datum (view app_utah) /\
    yDomain (view app') = yDomain (view app_utah) /\
    stateTitle (view app') = stateTitle (view app_utah).
Proof.
  assert (List.length (thresholds (computeStats store_gap (VAR_CONFIG et))) < 5)%nat
    as Hfew by (vm_compute; lia).
  split; [exact Hfew |].
  exact (@varSelect_throws_below_five_thresholds store_gap ["Utah"; "Nevada"] et app_utah Hfew).
Defined.

(** What the listeners keep when none of them throws. *)
Lemma updateMap_done (modisData : list (row xnum)) (statesGeo : list string) (app : App) :
  (forall key, (5 <= List.length (thresholds (computeStats modisData (VAR_CONFIG key))))%nat) ->
  exists app',
    updateMap modisData (computeVarStats modisData) statesGeo app = Done app' /\
    map_in_sync modisData (computeVarStats modisData) statesGeo app' /\
    chartReady app' = chartReady app /\ currentVar app' = currentVar app /\
    selectedState app' = selectedState app.
Proof.
  intros Hfive. unfold updateMap. rewrite computeVarStats_entry.
  rewrite (proj2 (legend_labels_iff modisData (currentVar app)) (Hfive (currentVar app))).
  eexists. split; [reflexivity |]. unfold map_in_sync. cbn. now repeat split.
Qed.

Lemma updateSeasonalChart_done (modisData : list (row xnum))
      (varStats : list (var_key * VariableStats)) (statesGeo : list string) (app : App) :
  chartReady app = true -> map_in_sync modisData varStats statesGeo app ->
  exists app',
    updateSeasonalChart modisData app = Done app' /\
    map_in_sync modisData varStats statesGeo app' /\ chartReady app' = true /\
    currentVar app' = currentVar app /\ currentYear app' = currentYear app /\
    currentMonth app' = currentMonth app /\ selectedState app' = selectedState app /\
    fills (view app') = fills (view app).
Proof.
  intros Hready Hsync. unfold updateSeasonalChart.
  destruct (buildSeriesForState modisData (currentVar app) (selectedState app)).
  - exists app. now repeat split.
  - rewrite Hready. eexists. split; [reflexivity |]. unfold map_in_sync in *. cbn.
    now repeat split.
Qed.

Lemma app_step_done (modisData : list (row xnum)) (statesGeo : list string)
      (e : app_event) (app : App) :
  (forall key, (5 <= List.length (thresholds (computeStats modisData (VAR_CONFIG key))))%nat) ->
  chartReady app = true ->
  map_in_sync modisData (computeVarStats modisData) statesGeo app ->
  exists app',
    app_step modisData (computeVarStats modisData) statesGeo e app = Done app' /\
    chartReady app' = true /\
    map_in_sync modisData (computeVarStats modisData) statesGeo app'.
Proof.
  intros Hfive Hready Hsync. destruct e as [key | y | m | name]; cbn [app_step].
  - unfold on_varSelect_change.
    match goal with |- context [updateMap _ _ _ ?a] =>
      destruct (@updateMap_done modisData statesGeo a Hfive)
        as [app1 [H1 [Hsync1 [Hready1 _]]]] end.
    rewrite H1. cbn [and_then]. cbn [chartReady] in Hready1.
    destruct (@updateSeasonalChart_done modisData (computeVarStats modisData) statesGeo app1)
      as [app2 [H2 [Hsync2 [Hready2 _]]]]; [congruence | exact Hsync1 |].
    exists app2. now repeat split.
  - unfold on_yearSlider_input.
    match goal with |- context [updateMap _ _ _ ?a] =>
      destruct (@updateMap_done modisData statesGeo a Hfive)
        as [app1 [H1 [Hsync1 [Hready1 _]]]] end.
    exists app1. cbn [chartReady] in Hready1. split; [exact H1 |].
    split; [congruence | exact Hsync1].
  - unfold on_monthSelect_change.
    match goal with |- context [updateMap _ _ _ ?a] =>
      destruct (@updateMap_done modisData statesGeo a Hfive)
        as [app1 [H1 [Hsync1 [Hready1 _]]]] end.
    exists app1. cbn [chartReady] in Hready1. split; [exact H1 |].
    split; [congruence | exact Hsync1].
  - unfold on_state_click.
    match goal with |- context [updateSeasonalChart _ ?a] =>
      destruct (@updateSeasonalChart_done modisData (computeVarStats modisData) statesGeo a)
        as [app1 [H1 [Hsync1 [Hready1 [Hv [Hy [Hm _]]]]]]] end;
      [exact Hready | exact Hsync |].
    rewrite H1. cbn [and_then]. eexists. split; [reflexivity |].
    unfold map_in_sync in *. cbn. split; [exact Hready1 | exact Hsync1].
Qed.

(** X25: when every variable has five thresholds at least, [initMap]
    and [initSeasonalChart] end normally, and from then on no listener
    of the controls or of the map throws, whatever the reader does; after
    each of them the fill of every state is the one of the selected
    variable, year and month. *)
Theorem listeners_keep_map_in_sync :
  forall (modisData : list (row xnum)) (statesGeo : list string),
    (forall key,
        (5 <= List.length (thresholds (computeStats modisData (VAR_CONFIG key))))%nat) ->
    exists app0,
      init_views modisData (computeVarStats modisData) statesGeo = Done app0 /\
      map_in_sync modisData (computeVarStats modisData) statesGeo app0 /\
      forall events,
        Forall (fun o => is_done o = true /\
                         map_in_sync modisData (computeVarStats modisData) statesGeo
                                     (state_of o))
               (app_run modisData (computeVarStats modisData) statesGeo events app0).
Proof.
  intros modisData statesGeo Hfive. unfold init_views.
  destruct (@updateMap_done modisData statesGeo app_loaded Hfive)
    as [app1 [H1 [Hsync1 _]]].
  rewrite H1. cbn [and_then].
  match goal with |- context [updateSeasonalChart _ ?a] =>
    destruct (@updateSeasonalChart_done modisData (computeVarStats modisData) statesGeo a)
      as [app0 [H0 [Hsync0 [Hready0 _]]]] end; [reflexivity | exact Hsync1 |].
  exists app0. split; [exact H0 |]. split; [exact Hsync0 |].
  intros events. clear H0. revert app0 Hsync0 Hready0.
  induction events as [| e rest IH]; intros app Hsync Hready; [constructor |].
  cbn [app_run].
  destruct (@app_step_done modisData statesGeo e app Hfive Hready Hsync)
    as [app' [Hstep [Hready' Hsync']]].
  rewrite Hstep. constructor.
  - split; [reflexivity | exact Hsync'].
  - cbn [state_of]. now apply (IH app' Hsync' Hready').
Qed.

Lemma listeners_keep_map_in_sync_witness :
  (forall key,
      (5 <= List.length (thresholds (computeStats store_full (VAR_CONFIG key))))%nat) /\
  exists app0,
    init_views store_full (computeVarStats store_full) ["Utah"; "Nevada"; "Texas"]
      = Done app0 /\
    map_in_sync store_full (computeVarStats store_full) ["Utah"; "Nevada"; "Texas"] app0 /\
    forall events,
      Forall (fun o => is_done o = true /\
                       map_in_sync store_full (computeVarStats store_full)
                                   ["Utah"; "Nevada"; "Texas"] (state_of o))
             (app_run store_full (computeVarStats store_full) ["Utah"; "Nevada"; "Texas"]
                      events app0).
Proof.
  assert (forall key,
             (5 <= List.length (thresholds (computeStats store_full (VAR_CONFIG key))))%nat)
    as Hfive by (intros key; destruct key; vm_compute; lia).
  split; [exact Hfive |].
  exact (@listeners_keep_map_in_sync store_full ["Utah"; "Nevada"; "Texas"] Hfive).
Defined.
End MoreListeners.

(* ================================================================= *)
(** * Properties of the slides and of the typewriter *)

Section MoreSlides.

Lemma nth_error_update_nth {T : Type} (f : T -> T) (l : list T) : forall i j,
  nth_error (update_nth i f l) j =
  if (j =? i)%nat then option_map f (nth_error l j) else nth_error l j.
Proof.
  induction l as [| x rest IH]; intros i j.
  - destruct j as [| j], i as [| i]; simpl; try reflexivity.
    destruct (j =? i)%nat; reflexivity.
  - destruct i as [| i], j as [| j]; simpl; try reflexivity. apply IH.
Qed.

Lemma length_update_nth {T : Type} (f : T -> T) (l : list T) : forall i,
  List.length (update_nth i f l) = List.length l.
Proof.
  induction l as [| x rest IH]; intros [| i]; simpl; try reflexivity. now rewrite IH.
Qed.

Lemma map_update_nth {T U : Type} (g : T -> U) (f : T -> T) (h : U -> U) (l : list T) :
  (forall x, g (f x) = h (g x)) ->
  forall i, map g (update_nth i f l) = update_nth i h (map g l).
Proof.
  intros Hcomm. induction l as [| x rest IH]; intros [| i]; simpl; try reflexivity.
  - now rewrite Hcomm.
  - now rewrite IH.
Qed.

Lemma update_nth_id {T : Type} (f : T -> T) (l : list T) :
  (forall x, f x = x) -> forall i, update_nth i f l = l.
Proof.
  intros Hid. induction l as [| x rest IH]; intros [| i]; simpl; try reflexivity.
  - now rewrite Hid.
  - now rewrite IH.
Qed.

Lemma classList_add_contains c t : classList_contains (classList_add c t) t = true.
Proof.
  unfold classList_add. destruct (classList_contains c t) eqn:E; [assumption |].
  unfold classList_contains. rewrite existsb_app. simpl. rewrite String.eqb_refl.
  now rewrite orb_true_r.
Qed.

Lemma classList_remove_contains c t : classList_contains (classList_remove c t) t = false.
Proof.
  unfold classList_contains, classList_remove. induction c as [| x rest IH]; [reflexivity |].
  simpl. destruct (String.eqb x t) eqn:E; simpl; [assumption |].
  rewrite String.eqb_sym, E. assumption.
Qed.

(** The classes of the slides after a text has been set. *)
Lemma classes_set_text text i l :
  map classList (update_nth i (set_text text) l) = map classList l.
Proof.
  rewrite (map_update_nth classList (set_text text) (fun c => c)); [| reflexivity].
  now apply update_nth_id.
Qed.

Lemma tick_classes t d :
  map classList (slides (tick t d)) = map classList (slides d) /\
  pagerDots (tick t d) = pagerDots d /\ currentSlide (tick t d) = currentSlide d /\
  typingStarted (tick t d) = typingStarted d.
Proof.
  unfold tick. destruct (timer_i t <=? String.length (timer_full t))%nat; simpl.
  - rewrite classes_set_text. now repeat split.
  - now repeat split.
Qed.

Lemma fire_classes d :
  map classList (slides (fire d)) = map classList (slides d) /\
  pagerDots (fire d) = pagerDots d /\ currentSlide (fire d) = currentSlide d /\
  typingStarted (fire d) = typingStarted d.
Proof.
  unfold fire. destruct (timers d) as [| t rest]; [now repeat split |].
  apply (tick_classes t (mkDeck (slides d) (pagerDots d) (currentSlide d)
                                (typingStarted d) rest)).
Qed.

(** [startTypewriterOnSlide] throws exactly on a slide that does not
    exist, and changes neither classes nor the current slide. *)
Lemma startTypewriter_classes idx d :
  (idx < List.length (slides d))%nat ->
  exists d', startTypewriterOnSlide idx d = Some d' /\
             map classList (slides d') = map classList (slides d) /\
             pagerDots d' = pagerDots d /\ currentSlide d' = currentSlide d.
Proof.
  intros Hidx. unfold startTypewriterOnSlide.
  destruct (nth_error (slides d) idx) as [slide |] eqn:E;
    [| apply nth_error_None in E; lia].
  destruct (negb (classList_contains (classList slide) "type-slide"));
    [exists d; now repeat split |].
  destruct (existsb (Nat.eqb idx) (typingStarted d)); [exists d; now repeat split |].
  destruct (typewriter slide) as [el |]; [| exists d; now repeat split].
  eexists. split; [reflexivity |].
  match goal with |- context [tick ?t ?d0] =>
    destruct (tick_classes t d0) as [H1 [H2 [H3 _]]] end.
  rewrite H1, H2, H3. simpl. rewrite classes_set_text. now repeat split.
Qed.

Lemma only_current_active_classes d d' :
  map classList (slides d') = map classList (slides d) ->
  pagerDots d' = pagerDots d -> currentSlide d' = currentSlide d ->
  only_current_active d -> only_current_active d'.
Proof.
  intros Hs Hd Hc [Hlen [Hcur [Hslides Hdots]]].
  assert (List.length (slides d') = List.length (slides d)) as Hl.
  { rewrite <- (length_map classList (slides d')), Hs. apply length_map. }
  unfold only_current_active. rewrite Hs, Hd, Hc, Hl. now repeat split.
Qed.

Lemma classes_after_move (classes : list (list string)) cur idx :
  (forall i c, nth_error classes i = Some c ->
               classList_contains c "active" = (i =? cur)%nat) ->
  forall i c,
    nth_error (update_nth idx (fun c => classList_add c "active")
                 (update_nth cur (fun c => classList_remove c "active") classes)) i = Some c ->
    classList_contains c "active" = (i =? idx)%nat.
Proof.
  intros Hall i c. rewrite !nth_error_update_nth.
  destruct (i =? idx)%nat eqn:Ei.
  - destruct (i =? cur)%nat; destruct (nth_error classes i) as [c0 |]; simpl;
      intros E; inversion E; apply classList_add_contains.
  - destruct (i =? cur)%nat eqn:Ec.
    + destruct (nth_error classes i) as [c0 |]; simpl; intros E; inversion E.
      apply classList_remove_contains.
    + intros E. rewrite (Hall i c E). assumption.
Qed.

(** [goToSlide] on a slide that exists moves the class [active] there. *)
Lemma goToSlide_ok idx d :
  only_current_active d -> (idx < List.length (slides d))%nat ->
  exists d', goToSlide idx d = Some d' /\ only_current_active d' /\
             currentSlide d' = idx /\ List.length (slides d') = List.length (slides d).
Proof.
  intros [Hlen [Hcur [Hslides Hdots]]] Hidx. unfold goToSlide.
  destruct (nth_error (slides d) (currentSlide d)) eqn:E1;
    [| apply nth_error_None in E1; lia].
  destruct (nth_error (pagerDots d) (currentSlide d)) eqn:E2;
    [| apply nth_error_None in E2; lia].
  destruct (nth_error (slides d) idx) eqn:E3; [| apply nth_error_None in E3; lia].
  destruct (nth_error (pagerDots d) idx) eqn:E4; [| apply nth_error_None in E4; lia].
  match goal with |- context [startTypewriterOnSlide idx ?d0] => set (moved := d0) end.
  assert (only_current_active moved) as Hmoved.
  { unfold only_current_active, moved. cbn [slides pagerDots currentSlide].
    rewrite !length_update_nth. split; [assumption |]. split; [assumption |]. split.
    - rewrite (map_update_nth classList _ (fun c => classList_add c "active"));
        [| reflexivity].
      rewrite (map_update_nth classList _ (fun c => classList_remove c "active"));
        [| reflexivity].
      now apply classes_after_move.
    - now apply classes_after_move. }
  destruct (@startTypewriter_classes idx moved) as [d' [Hstart [Hs [Hd Hc]]]].
  { unfold moved. cbn [slides]. now rewrite !length_update_nth. }
  exists d'. split; [assumption |]. split.
  - now apply (@only_current_active_classes _ _ Hs Hd Hc).
  - split; [rewrite Hc; reflexivity |].
    rewrite <- (length_map classList (slides d')), Hs, length_map.
    unfold moved. cbn [slides]. now rewrite !length_update_nth.
Qed.

Lemma next_index_spec d :
  (currentSlide d < List.length (slides d))%nat ->
  next_index d = ((currentSlide d + 1) mod List.length (slides d))%nat.
Proof.
  intros Hcur. unfold next_index. rewrite Z.rem_mod_nonneg by lia.
  rewrite <- (Nat2Z.id ((currentSlide d + 1) mod List.length (slides d))).
  f_equal. rewrite Nat2Z.inj_mod. f_equal. lia.
Qed.

Lemma prev_index_spec d :
  (currentSlide d < List.length (slides d))%nat ->
  prev_index d = ((currentSlide d + List.length (slides d) - 1) mod List.length (slides d))%nat.
Proof.
  intros Hcur. unfold prev_index. rewrite Z.rem_mod_nonneg by lia.
  rewrite <- (Nat2Z.id ((currentSlide d + List.length (slides d) - 1)
                         mod List.length (slides d))).
  f_equal. rewrite Nat2Z.inj_mod. f_equal. lia.
Qed.

Lemma next_index_lt d :
  (currentSlide d < List.length (slides d))%nat ->
  (next_index d < List.length (slides d))%nat.
Proof. intros Hcur. rewrite next_index_spec by assumption. apply Nat.mod_upper_bound. lia. Qed.

Lemma prev_index_lt d :
  (currentSlide d < List.length (slides d))%nat ->
  (prev_index d < List.length (slides d))%nat.
Proof. intros Hcur. rewrite prev_index_spec by assumption. apply Nat.mod_upper_bound. lia. Qed.

Lemma slide_step_ok e d :
  only_current_active d -> event_possible d e ->
  exists d', slide_step e d = Some d' /\ only_current_active d' /\
             List.length (slides d') = List.length (slides d).
Proof.
  intros Hok Hpossible. pose proof Hok as [_ [Hcur _]].
  assert (forall idx, (idx < List.length (slides d))%nat ->
            exists d', goToSlide idx d = Some d' /\ only_current_active d' /\
                       List.length (slides d') = List.length (slides d)) as Hgo.
  { intros idx Hidx. destruct (@goToSlide_ok idx d Hok Hidx) as [d' [H1 [H2 [_ H3]]]].
    exists d'. split; [exact H1 |]. split; [exact H2 | exact H3]. }
  destruct e as [| | idx | key |]; simpl.
  - apply Hgo. now apply next_index_lt.
  - apply Hgo. now apply prev_index_lt.
  - now apply Hgo.
  - unfold on_keydown. destruct (String.eqb key "ArrowRight").
    + apply Hgo. now apply next_index_lt.
    + destruct (String.eqb key "ArrowLeft").
      * apply Hgo. now apply prev_index_lt.
      * exists d. split; [reflexivity |]. split; [exact Hok | reflexivity].
  - exists (fire d). split; [reflexivity |]. destruct (fire_classes d) as [Hs [Hd [Hc _]]].
    split; [now apply (@only_current_active_classes _ _ Hs Hd Hc) |].
    rewrite <- (length_map classList (slides (fire d))), Hs. apply length_map.
Qed.

Lemma event_possible_length d d' e :
  List.length (slides d') = List.length (slides d) ->
  event_possible d e -> event_possible d' e.
Proof. intros Hlen. destruct e; simpl; try exact (fun H => H). now rewrite Hlen. Qed.

(** X17: whatever the reader does (next, previous, a dot, a key) and
    whenever the timers of the typewriter fire, no listener throws,
    and exactly the current slide and its dot are active afterwards. *)
Theorem slides_keep_one_active :
  forall (events : list slide_event) (d : Deck),
    only_current_active d ->
    Forall (event_possible d) events ->
    exists d', slide_run events d = Some d' /\ only_current_active d' /\
               List.length (slides d') = List.length (slides d).
Proof.
  induction events as [| e rest IH]; intros d Hok Hall.
  - exists d. split; [reflexivity |]. split; [exact Hok | reflexivity].
  - inversion Hall as [| e' rest' He Hrest]; subst.
    destruct (@slide_step_ok e d Hok He) as [d1 [Hstep [Hok1 Hlen1]]].
    destruct (IH d1 Hok1) as [d' [Hrun [Hok' Hlen']]].
    { apply Forall_forall. intros e' He'. apply (@event_possible_length d d1 e' Hlen1).
      now apply (proj1 (Forall_forall _ _) Hrest). }
    exists d'. simpl. rewrite Hstep. split; [exact Hrun |]. split; [exact Hok' |].
    now rewrite Hlen'.
Qed.

Lemma deck_three_ok : only_current_active deck_three.
Proof.
  split; [reflexivity |]. split; [simpl; lia |]. split.
  - intros [| [| [| i]]] c E; simpl in E; try (inversion E; reflexivity).
    destruct i; discriminate E.
  - intros [| [| [| i]]] c E; simpl in E; try (inversion E; reflexivity).
    destruct i; discriminate E.
Qed.

Lemma slides_keep_one_active_witness :
  only_current_active deck_three /\
  Forall (event_possible deck_three)
         [ClickNext; TimerFires; KeyDown "ArrowLeft"; ClickDot 2; ClickPrev] /\
  exists d', slide_run [ClickNext; TimerFires; KeyDown "ArrowLeft"; ClickDot 2; ClickPrev]
                       deck_three = Some d' /\
             only_current_active d' /\
             List.length (slides d') = List.length (slides deck_three).
Proof.
  assert (Forall (event_possible deck_three)
                 [ClickNext; TimerFires; KeyDown "ArrowLeft"; ClickDot 2; ClickPrev]) as Hall.
  { repeat constructor. }
  split; [exact deck_three_ok |]. split; [exact Hall |].
  exact (@slides_keep_one_active _ deck_three deck_three_ok Hall).
Defined.

(** X18: [initSlides] throws exactly on a page without a slide. *)
Theorem initSlides_throws_iff_no_slide :
  forall document_slides : list SlideEl,
    initSlides document_slides = None <-> document_slides = [].
Proof.
  intros doc. split.
  - intros Hnone. destruct doc as [| s rest]; [reflexivity |].
    unfold initSlides in Hnone.
    match type of Hnone with startTypewriterOnSlide 0 ?d0 = None =>
      destruct (@startTypewriter_classes 0%nat d0) as [d' [Hsome _]] end.
    + simpl. lia.
    + rewrite Hsome in Hnone. discriminate Hnone.
  - intros ->. reflexivity.
Qed.

Lemma nth_error_map_seq {T : Type} (f : nat -> T) : forall len start i c,
  nth_error (map f (seq start len)) i = Some c -> c = f (start + i)%nat.
Proof.
  intros len. induction len as [| len IH]; intros start i c E.
  - destruct i; discriminate E.
  - destruct i as [| i]; simpl in E.
    + inversion E. now rewrite Nat.add_0_r.
    + apply IH in E. rewrite E. f_equal. lia.
Qed.

(** X19: on a page where the first slide alone carries the class
    [active], [initSlides] leaves slide 0 current, with exactly that
    slide and the first dot active. *)
Theorem initSlides_first_active :
  forall document_slides : list SlideEl,
    document_slides <> [] ->
    (forall i c, nth_error (map classList document_slides) i = Some c ->
                 classList_contains c "active" = (i =? 0)%nat) ->
    exists d, initSlides document_slides = Some d /\ only_current_active d /\
              currentSlide d = 0%nat /\
              List.length (pagerDots d) = List.length document_slides.
Proof.
  intros doc Hne Hfirst. unfold initSlides.
  match goal with |- context [startTypewriterOnSlide 0 ?d0] => set (made := d0) end.
  assert (0 < List.length doc)%nat as Hpos.
  { destruct doc; [contradiction | simpl; lia]. }
  assert (only_current_active made) as Hmade.
  { unfold only_current_active, made. cbn [slides pagerDots currentSlide].
    rewrite length_map, length_seq. split; [reflexivity |]. split; [exact Hpos |].
    split; [exact Hfirst |]. intros i c E. apply nth_error_map_seq in E. subst c.
    simpl. destruct i; reflexivity. }
  destruct (@startTypewriter_classes 0%nat made Hpos) as [d [Hstart [Hs [Hd Hc]]]].
  exists d. split; [exact Hstart |]. split.
  - exact (@only_current_active_classes _ _ Hs Hd Hc Hmade).
  - split; [rewrite Hc; reflexivity |]. rewrite Hd. unfold made. cbn [pagerDots].
    now rewrite length_map, length_seq.
Qed.

Lemma initSlides_first_active_witness :
  document_three <> [] /\
  exists d, initSlides document_three = Some d /\ only_current_active d /\
            currentSlide d = 0%nat /\
            List.length (pagerDots d) = List.length document_three.
Proof.
  assert (document_three <> []) as Hne by discriminate.
  split; [exact Hne |].
  apply (@initSlides_first_active document_three Hne).
  intros [| [| [| i]]] c E; simpl in E; try (inversion E; reflexivity).
  destruct i; discriminate E.
Defined.

Lemma next_prev_index (cur n : nat) :
  (cur < n)%nat ->
  (((cur + 1) mod n + n - 1) mod n = cur /\
   ((cur + n - 1) mod n + 1) mod n = cur)%nat.
Proof.
  intros Hcur. split.
  - destruct (Nat.eq_dec (cur + 1) n) as [E | E].
    + rewrite E, Nat.Div0.mod_same. rewrite Nat.mod_small by lia. lia.
    + rewrite (Nat.mod_small (cur + 1) n) by lia.
      replace (cur + 1 + n - 1)%nat with (cur + 1 * n)%nat by lia.
      rewrite Nat.Div0.mod_add. apply Nat.mod_small. lia.
  - destruct cur as [| cur].
    + rewrite (Nat.mod_small (0 + n - 1) n) by lia.
      replace (0 + n - 1 + 1)%nat with n by lia. apply Nat.Div0.mod_same.
    + replace (S cur + n - 1)%nat with (cur + 1 * n)%nat by lia.
      rewrite Nat.Div0.mod_add. rewrite (Nat.mod_small cur n) by lia.
      rewrite Nat.mod_small by lia. lia.
Qed.

(** X20: next then previous, and previous then next, lead back to the
    slide one started from, also around the ends of the deck. *)
Theorem next_prev_round_trip :
  forall d : Deck,
    only_current_active d ->
    (exists d1 d2, on_nextSlide d = Some d1 /\ on_prevSlide d1 = Some d2 /\
                   currentSlide d2 = currentSlide d) /\
    (exists d1 d2, on_prevSlide d = Some d1 /\ on_nextSlide d1 = Some d2 /\
                   currentSlide d2 = currentSlide d).
Proof.
  intros d Hok. pose proof Hok as [_ [Hcur _]].
  destruct (@next_prev_index (currentSlide d) (List.length (slides d)) Hcur) as [Hnp Hpn].
  split.
  - destruct (@goToSlide_ok (next_index d) d Hok (next_index_lt d Hcur))
      as [d1 [H1 [Hok1 [Hc1 Hl1]]]].
    pose proof Hok1 as [_ [Hcur1 _]].
    destruct (@goToSlide_ok (prev_index d1) d1 Hok1 (prev_index_lt d1 Hcur1))
      as [d2 [H2 [_ [Hc2 _]]]].
    exists d1, d2. split; [exact H1 |]. split; [exact H2 |].
    rewrite Hc2, (prev_index_spec d1 Hcur1), Hc1, Hl1, (next_index_spec d Hcur). exact Hnp.
  - destruct (@goToSlide_ok (prev_index d) d Hok (prev_index_lt d Hcur))
      as [d1 [H1 [Hok1 [Hc1 Hl1]]]].
    pose proof Hok1 as [_ [Hcur1 _]].
    destruct (@goToSlide_ok (next_index d1) d1 Hok1 (next_index_lt d1 Hcur1))
      as [d2 [H2 [_ [Hc2 _]]]].
    exists d1, d2. split; [exact H1 |]. split; [exact H2 |].
    rewrite Hc2, (next_index_spec d1 Hcur1), Hc1, Hl1, (prev_index_spec d Hcur). exact Hpn.
Qed.

Lemma next_prev_round_trip_witness :
  only_current_active deck_three /\
  (exists d1 d2, on_nextSlide deck_three = Some d1 /\ on_prevSlide d1 = Some d2 /\
                 currentSlide d2 = currentSlide deck_three) /\
  (exists d1 d2, on_prevSlide deck_three = Some d1 /\ on_nextSlide d1 = Some d2 /\
                 currentSlide d2 = currentSlide deck_three).
Proof.
  split; [exact deck_three_ok |]. exact (@next_prev_round_trip deck_three deck_three_ok).
Defined.
End MoreSlides.

Section MoreTypewriter.

Lemma substring_0_0 (s : string) : substring 0 0 s = "".
Proof. destruct s; reflexivity. Qed.

Lemma substring_0_length (s : string) : substring 0 (String.length s) s = s.
Proof. induction s as [| ch s IH]; simpl; [reflexivity | now rewrite IH]. Qed.

(** Setting the text of the typewriter of a slide that has one. *)
Lemma text_at_set_text idx text d dots cur started pending :
  text_at idx d <> None ->
  text_at idx (mkDeck (update_nth idx (set_text text) (slides d)) dots cur started pending)
  = Some text.
Proof.
  unfold text_at. cbn [slides]. rewrite nth_error_update_nth, Nat.eqb_refl.
  destruct (nth_error (slides d) idx) as [slide |]; [| intros Hnone; now contradiction Hnone].
  simpl. destruct (typewriter slide); [reflexivity | intros Hnone; now contradiction Hnone].
Qed.

Lemma fire_idle d : timers d = [] -> fire d = d.
Proof. unfold fire. now intros ->. Qed.

Lemma iter_fire_idle d : timers d = [] -> forall k, Nat.iter k fire d = d.
Proof.
  intros Hidle k. induction k as [| k IH]; [reflexivity |].
  simpl. rewrite IH. now apply fire_idle.
Qed.

(** One timer of the typewriter of slide [idx], alone, fires. *)
Lemma fire_typewriter idx full i d :
  timers d = [mkTimer idx full i] -> text_at idx d <> None ->
  (i <= String.length full)%nat ->
  timers (fire d) = [mkTimer idx full (S i)] /\
  text_at idx (fire d) = Some (substring 0 i full).
Proof.
  intros Htimers Htext Hi. unfold fire. rewrite Htimers. unfold tick.
  cbn [timer_i timer_full timer_slide]. rewrite (proj2 (Nat.leb_le _ _) Hi).
  split; [reflexivity |].
  apply (@text_at_set_text idx _ (mkDeck (slides d) (pagerDots d) (currentSlide d)
                                         (typingStarted d) [])).
  exact Htext.
Qed.

Lemma fire_typewriter_last idx full d :
  timers d = [mkTimer idx full (S (String.length full))] ->
  timers (fire d) = [] /\ text_at idx (fire d) = text_at idx d.
Proof.
  intros Htimers. unfold fire. rewrite Htimers. unfold tick.
  cbn [timer_i timer_full timer_slide].
  rewrite (proj2 (Nat.leb_gt _ _) (Nat.lt_succ_diag_r _)). split; reflexivity.
Qed.

Lemma iter_fire_typewriter idx full d :
  timers d = [mkTimer idx full 1] -> text_at idx d = Some "" ->
  forall k, (k <= String.length full)%nat ->
    timers (Nat.iter k fire d) = [mkTimer idx full (S k)] /\
    text_at idx (Nat.iter k fire d) = Some (substring 0 k full).
Proof.
  intros Htimers Htext k. induction k as [| k IH]; intros Hk.
  - simpl. rewrite substring_0_0. now split.
  - destruct IH as [IHt IHx]; [lia |].
    change (Nat.iter (S k) fire d) with (fire (Nat.iter k fire d)).
    apply fire_typewriter; [exact IHt | rewrite IHx; discriminate | exact Hk].
Qed.



(** X22: started on a slide of class [type-slide] whose typewriter has
    not run, with no other timer pending, the typewriter shows the
    first [k] characters of the text after [k] timers, the whole text
    from then on, and leaves no timer behind. *)
Theorem typewriter_types_whole_text :
  forall (d : Deck) (idx : nat) (slide : SlideEl) (el : TypewriterEl) (full : string),
    nth_error (slides d) idx = Some slide ->
    classList_contains (classList slide) "type-slide" = true ->
    existsb (Nat.eqb idx) (typingStarted d) = false ->
    typewriter slide = Some el ->
    full = match data_fulltext el with Some s => s | None => "" end ->
    timers d = [] ->
    exists d1,
      startTypewriterOnSlide idx d = Some d1 /\
      (forall k, (k <= String.length full)%nat ->
                 text_at idx (Nat.iter k fire d1) = Some (substring 0 k full)) /\
      (forall k, (String.length full <= k)%nat ->
                 text_at idx (Nat.iter k fire d1) = Some full) /\
      (forall k, (String.length full < k)%nat -> timers (Nat.iter k fire d1) = []).
Proof.
  intros d idx slide el full Hslide Htype Hstarted Hel Hfull Htimers.
  unfold startTypewriterOnSlide. rewrite Hslide, Htype, Hstarted, Hel, <- Hfull. simpl negb.
  cbv iota. eexists. split; [reflexivity |].
  match goal with |- context [tick ?t ?d0] => set (d1 := tick t d0) end.
  assert (text_at idx d <> None) as Hhas.
  { unfold text_at. rewrite Hslide, Hel. discriminate. }
  assert (timers d1 = [mkTimer idx full 1] /\ text_at idx d1 = Some "") as [Ht1 Hx1].
  { unfold d1, tick. cbn [timer_i timer_full timer_slide timers slides Nat.leb].
    rewrite Htimers. split; [reflexivity |]. rewrite substring_0_0.
    match goal with |- text_at idx (mkDeck (update_nth idx _ ?l) _ _ _ _) = _ =>
      apply (@text_at_set_text idx "" (mkDeck l (pagerDots d) (currentSlide d)
                                              (idx :: typingStarted d) [])) end.
    rewrite (@text_at_set_text idx "" d); [discriminate | exact Hhas]. }
  pose proof (@iter_fire_typewriter idx full d1 Ht1 Hx1) as Hrun.
  destruct (Hrun (String.length full) (Nat.le_refl _)) as [Htl Hxl].
  rewrite substring_0_length in Hxl.
  destruct (@fire_typewriter_last idx full _ Htl) as [Hidle Hlast].
  assert (forall k, (String.length full < k)%nat ->
            Nat.iter k fire d1 = fire (Nat.iter (String.length full) fire d1)) as Hafter.
  { intros k Hk. replace k with ((k - S (String.length full)) + S (String.length full))%nat
      by lia.
    rewrite Nat.iter_add.
    change (Nat.iter (S (String.length full)) fire d1)
      with (fire (Nat.iter (String.length full) fire d1)).
    now apply iter_fire_idle. }
  split; [| split].
  - intros k Hk. now apply Hrun.
  - intros k Hk. destruct (Nat.eq_dec k (String.length full)) as [-> | Hne].
    + exact Hxl.
    + rewrite Hafter by lia. now rewrite Hlast.
  - intros k Hk. now rewrite Hafter.
Qed.

Lemma typewriter_types_whole_text_witness :
  exists d1,
    startTypewriterOnSlide 0 deck_three = Some d1 /\
    (forall k, (k <= String.length "Hi")%nat ->
               text_at 0 (Nat.iter k fire d1) = Some (substring 0 k "Hi")) /\
    (forall k, (String.length "Hi" <= k)%nat ->
               text_at 0 (Nat.iter k fire d1) = Some "Hi") /\
    (forall k, (String.length "Hi" < k)%nat -> timers (Nat.iter k fire d1) = []).
Proof.
  apply (@typewriter_types_whole_text deck_three 0%nat
           (mkSlide ["slide"; "type-slide"; "active"] (Some (mkTypewriter (Some "Hi") "")))
           (mkTypewriter (Some "Hi") "") "Hi"); reflexivity.
Defined.
End MoreTypewriter.

(* ================================================================= *)
(** * Properties of the loading *)

Section MoreLoading.
Context {num : Type} `{Number num}.
Variable to_number_of_string : string -> num.
Variable to_integer : string -> Z.
Variable to_time : string -> Z.

Lemma loadData_get_field (f : field) (d : csv_row) :
  get_field f (loadData_row to_number_of_string to_integer to_time d)
  = parse_cell to_number_of_string (csv_cell f d).
Proof. destruct f; reflexivity. Qed.

Lemma loadData_valid_values (f : field) (rows : list csv_row) :
  valid_values (get_field f) (loadData to_number_of_string to_integer to_time rows)
  = valid_values (fun cell => Some (to_number_of_string cell))
      (filter (fun cell => negb (String.eqb cell "")) (map (csv_cell f) rows)).
Proof.
  induction rows as [| d rest IH]; [reflexivity |].
  unfold loadData in *. cbn [map valid_values filter]. rewrite loadData_get_field.
  unfold parse_cell. destruct (String.eqb (csv_cell f d) ""); simpl; [exact IH |].
  now rewrite IH.
Qed.
End MoreLoading.

(** X23: whatever the conversion [+cell] gives for an empty cell, the
    mean of a column of the loaded records is the mean of the
    conversions of its cells that are not empty: an empty cell never
    counts, be it as zero. *)
Theorem loadData_empty_cells_not_counted :
  forall (num : Type) (HN : Number num)
         (to_number_of_string : string -> num) (to_integer to_time : string -> Z)
         (f : field) (rows : list csv_row),
    d3_mean (loadData to_number_of_string to_integer to_time rows) (get_field f)
    = d3_mean (filter (fun cell => negb (String.eqb cell "")) (map (csv_cell f) rows))
              (fun cell => Some (to_number_of_string cell)).
Proof.
  intros num HN conv ti tt f rows. rewrite !d3_mean_spec.
  now rewrite loadData_valid_values.
Qed.

Section MoreEmptyColumn.
Variable to_number_of_string : string -> xnum.
Variable to_integer : string -> Z.
Variable to_time : string -> Z.

Lemma Map_find_Some_In {R : Type} (m : list (string * R)) k r :
  Map_find String.eqb m k = Some r -> In (k, r) m.
Proof.
  induction m as [| [k' r'] rest IH]; simpl; [discriminate |].
  destruct (String.eqb k' k) eqn:E.
  - intros Hr. inversion Hr; subst. apply String.eqb_eq in E. subst. now left.
  - intros Hr. right. now apply IH.
Qed.

Lemma loadData_empty_column (f : field) (rows : list csv_row) :
  (forall d, In d rows -> csv_cell f d = "") ->
  forall r, In r (loadData to_number_of_string to_integer to_time rows) ->
            is_valid (get_field f r) = false.
Proof.
  intros Hempty r Hr. unfold loadData in Hr. apply in_map_iff in Hr as [d [<- Hd]].
  rewrite loadData_get_field. unfold parse_cell. now rewrite (Hempty d Hd).
Qed.

(** X24: when every cell of the column of a variable is empty, the
    loaded store has no minimum, no maximum and no threshold for it,
    every state of the map gets the background colour in every month,
    and the chart has no point, for any selection of a state. *)
Theorem loadData_empty_column_no_data :
  forall (rows : list csv_row) (key : var_key),
    (forall d, In d rows -> csv_cell (cfg_field (VAR_CONFIG key)) d = "") ->
    let store := loadData to_number_of_string to_integer to_time rows in
    min (computeStats store (VAR_CONFIG key)) = None /\
    max (computeStats store (VAR_CONFIG key)) = None /\
    thresholds (computeStats store (VAR_CONFIG key)) = [] /\
    (forall y m name,
       updateMap_fill store (computeVarStats store) key y m name = Some (Hex "#020617")) /\
    (forall stateName, buildSeriesForState store key stateName = []).
Proof.
  intros rows key Hempty store.
  pose proof (@loadData_empty_column (cfg_field (VAR_CONFIG key)) rows Hempty) as Hinvalid.
  fold store in Hinvalid.
  assert (filter is_valid (map (fun d => get_field (cfg_field (VAR_CONFIG key)) d) store) = [])
    as Hvals.
  { apply filter_none. intros v Hv. apply in_map_iff in Hv as [r [<- Hr]].
    now apply Hinvalid. }
  unfold computeStats. cbn [min max thresholds]. rewrite Hvals.
  split; [reflexivity |]. split; [reflexivity |]. split; [reflexivity |]. split.
  - intros y m name. apply updateMap_fill_background. unfold Map_get.
    destruct (Map_find String.eqb (valuesByState store key y m) name) as [v |] eqn:E;
      [| reflexivity].
    apply Map_find_Some_In in E. apply valuesByState_In in E as [-> _].
    apply d3_mean_undefined. intros r Hr. apply Hinvalid.
    unfold members in Hr. apply filter_In in Hr as [Hr _]. now apply filter_In in Hr as [Hr _].
  - intros stateName. apply series_empty_iff. intros r Hr _. now apply Hinvalid.
Qed.
End MoreEmptyColumn.

Lemma loadData_empty_column_witness :
  (forall d, In d csv_three -> csv_cell (cfg_field (VAR_CONFIG et)) d = "") /\
  let store := loadData (fun _ => Fin 0) (fun _ => 2020%Z) (fun _ => 0%Z) csv_three in
  min (computeStats store (VAR_CONFIG et)) = None /\
  max (computeStats store (VAR_CONFIG et)) = None /\
  thresholds (computeStats store (VAR_CONFIG et)) = [] /\
  (forall y m name,
     updateMap_fill store (computeVarStats store) et y m name = Some (Hex "#020617")) /\
  (forall stateName, buildSeriesForState store et stateName = []).
Proof.
  assert (forall d, In d csv_three -> csv_cell (cfg_field (VAR_CONFIG et)) d = "") as Hempty.
  { intros d [<- | [<- | [<- | []]]]; reflexivity. }
  split; [exact Hempty |].
  exact (@loadData_empty_column_no_data (fun _ => Fin 0) (fun _ => 2020%Z) (fun _ => 0%Z)
           csv_three et Hempty).
Defined.

(* ================================================================= *)
(** * How many thresholds there are *)

Section MoreTicks.
Local Open Scope Q_scope.












End MoreTicks.
